(** * Array32Index: a sparse index over a bitmap (array/index_by_bitmap.go)

    A shallow embedding of the Go package [array] and a verification of
    its construction protocol ([InitIndexBitmap], [appendIndex]) and of its
    two queries ([Has], [GetEltIndex]).

    Go values are modelled as follows:
    - [int32] as [Z], every arithmetic result passed through [Int32.wrap];
    - [uint64] bitmap words as [Z] in [0, 2^64), shifts reduced modulo 2^64;
    - slices as lists, indexed through [slice_get], which is [None] exactly
      where the Go runtime raises "index out of range";
    - a method with a pointer receiver as a function returning the receiver
      after the call together with the way the call ended ([exit]): a
      normal return, or a run-time panic. *)

From Stdlib Require Import ZArith Lia Bool.
From stdpp Require Import base list.

Local Open Scope Z_scope.

(** ** Fixed-width integers *)

Module Int32.
Definition modulus : Z := 4294967296.
Definition half : Z := 2147483648.
Definition max_int : Z := 2147483647.

(** Two's complement reduction of a mathematical integer to [int32]. *)
Definition wrap (z : Z) : Z := (z + half) mod modulus - half.

Definition in_range (z : Z) : Prop := - half <= z < half.

(** [x / y] of Go truncates toward zero. *)
Definition quot (x y : Z) : Z := wrap (Z.quot x y).
End Int32.

Module Uint32.
Definition modulus : Z := 4294967296.
Definition wrap (z : Z) : Z := z mod modulus.
End Uint32.

Module Uint64.
Definition modulus : Z := 18446744073709551616.
Definition wrap (z : Z) : Z := z mod modulus.
Definition shl (x n : Z) : Z := wrap (Z.shiftl x n).
Definition sub (x y : Z) : Z := wrap (x - y).
End Uint64.

(** ** Package [bits] *)

Module bits.
(** Number of indices [i < n] at which bit [i] of [w] is set. *)
Fixpoint count_bits (w : Z) (n : nat) : Z :=
  match n with
  | O => 0
  | S n' => count_bits w n' + Z.b2z (Z.testbit w (Z.of_nat n'))
  end.

(** Go's [math/bits.OnesCount64]: the population count of a 64-bit word. *)
Definition OnesCount64 (w : Z) : Z := count_bits (Uint64.wrap w) 64.

(** Modelled from the spec: [bits.OnesCount64Before] belongs to package
    [github.com/openacid/slim/bits], another package of the repository.
    Section 4.1 of the specification describes it: "mask
    off bits >= p, then population-count the remainder". *)
Definition OnesCount64Before (n : Z) (iBit : Z) : Z :=
  OnesCount64 (Z.land n (Uint64.sub (Uint64.shl 1 iBit) 1)).
End bits.

(** ** Package [prototype] *)

(** Modelled from the spec: the struct [prototype.Array32] embedded in
    [Array32Index] is declared in package [prototype] of the repository.
    Section 3 of the specification lists its fields [count], [blocks] and
    [block_base], which index_by_bitmap.go calls [Cnt], [Bitmaps] and
    [Offsets]; [Elts] is the dense element array the comment of
    [GetEltIndex] refers to, which no function below reads or writes. *)
Record Array32 : Type := mkArray32 {
  Cnt : Z;              (* int32    *)
  Bitmaps : list Z;     (* []uint64 *)
  Offsets : list Z;     (* []int32  *)
  Elts : list Z         (* []byte   *)
}.

(** The zero value of the struct: what [&Array32Index{}] points to. *)
Definition zero_Array32 : Array32 :=
  {| Cnt := 0; Bitmaps := []; Offsets := []; Elts := [] |}.

(** ** How a call ends *)

Inductive panic : Type :=
| MakeSliceLenOutOfRange
| IndexOutOfRange.

Inductive exit (A : Type) : Type :=
| Return (v : A)
| Panics (p : panic).
Arguments Return {A} v.
Arguments Panics {A} p.

Inductive error : Type :=
| ErrIndexNotAscending.

(** [s[i]] for a signed index: defined for [0 <= i < len(s)]. *)
Definition slice_get {A : Type} (s : list A) (i : Z) : option A :=
  if 0 <=? i then s !! Z.to_nat i else None.

(** [s[i] = v]; only used after [slice_get s i] succeeded. *)
Definition slice_set {A : Type} (s : list A) (i : Z) (v : A) : list A :=
  <[Z.to_nat i := v]> s.

(** [int32(len(s))] *)
Definition len32 {A : Type} (s : list A) : Z :=
  Int32.wrap (Z.of_nat (length s)).

(** ** Package [array] *)

Definition bmWidth : Z := 64.
Definition bmMask : Z := 63.

(** [bmBit]: word index and bit index of a key, by shift and mask. *)
Definition bmBit (idx : Z) : Z * Z :=
  let c := Z.shiftr idx 6 in
  let r := Z.land idx 63 in
  (c, r).

(** The split [Has] computes inline, by division and mask. *)
Definition hasBit (idx : Z) : Z * Z :=
  (Int32.quot idx bmWidth, Z.land idx bmMask).

Definition appendIndex (a : Array32) (index : Z) : Array32 * exit unit :=
  let '(iBm, iBit) := bmBit index in
  match slice_get (Bitmaps a) iBm with
  | None => (a, Panics IndexOutOfRange)
  | Some bmWord =>
    let stored :=
      if bmWord =? 0 then
        match slice_get (Offsets a) iBm with
        | None => None
        | Some _ => Some (slice_set (Offsets a) iBm (Cnt a))
        end
      else Some (Offsets a) in
    match stored with
    | None => (a, Panics IndexOutOfRange)
    | Some offsets =>
      ({| Cnt := Int32.wrap (Cnt a + 1);
          Bitmaps := slice_set (Bitmaps a) iBm
                       (Z.lor bmWord (Uint64.shl 1 (Uint64.wrap iBit)));
          Offsets := offsets;
          Elts := Elts a |}, Return tt)
    end
  end.

(** The [for] loop of [InitIndexBitmap], over the part of [index] still to
    be visited. *)
Fixpoint InitIndexBitmap_loop (a : Array32) (nxt : Z) (index : list Z)
  : Array32 * exit (option error) :=
  match index with
  | [] => (a, Return None)
  | x :: rest =>
    if x <? nxt then (a, Return (Some ErrIndexNotAscending))
    else
      match appendIndex a x with
      | (a', Return _) => InitIndexBitmap_loop a' (Int32.wrap (x + 1)) rest
      | (a', Panics p) => (a', Panics p)
      end
  end.

(** [capacity] and [bmCnt] as computed in lines 49-54. *)
Definition capacity_of (index : list Z) : Z :=
  match last index with
  | Some l => Int32.wrap (l + 1)
  | None => 0
  end.

Definition bmCnt_of (index : list Z) : Z :=
  Int32.quot
    (Int32.wrap (Int32.wrap (capacity_of index + bmWidth) - 1)) bmWidth.

Definition InitIndexBitmap (a : Array32) (index : list Z)
  : Array32 * exit (option error) :=
  let bmCnt := bmCnt_of index in
  if bmCnt <? 0 then (a, Panics MakeSliceLenOutOfRange)
  else
    let a1 := {| Cnt := Cnt a;
                 Bitmaps := replicate (Z.to_nat bmCnt) 0;
                 Offsets := replicate (Z.to_nat bmCnt) 0;
                 Elts := Elts a |} in
    InitIndexBitmap_loop a1 0 index.

Definition GetEltIndex (a : Array32) (idx : Z) : exit (Z * bool) :=
  let '(iBm, iBit) := bmBit idx in
  if iBm >=? len32 (Bitmaps a) then Return (0, false)
  else
    match slice_get (Bitmaps a) iBm with
    | None => Panics IndexOutOfRange
    | Some bmWord =>
      if Z.land (Z.shiftr bmWord (Uint64.wrap iBit)) 1 =? 0
      then Return (0, false)
      else
        match slice_get (Offsets a) iBm with
        | None => Panics IndexOutOfRange
        | Some base =>
          let cnt1 := bits.OnesCount64Before bmWord (Uint64.wrap iBit) in
          Return (Int32.wrap (base + Int32.wrap cnt1), true)
        end
    end.

Definition Has (a : Array32) (idx : Z) : exit bool :=
  let '(iBm, iBit) := hasBit idx in
  if iBm <? len32 (Bitmaps a) then
    match slice_get (Bitmaps a) iBm with
    | None => Panics IndexOutOfRange
    | Some bmWord =>
      Return (negb (Z.land (Z.shiftr bmWord (Uint32.wrap iBit)) 1 =? 0))
    end
  else Return false.

(** ** Vocabulary of the specification *)

(** "strictly ascending order (key[i] > key[i-1] for all i>0)" *)
Fixpoint strictly_ascending (l : list Z) : bool :=
  match l with
  | x :: ((y :: _) as t) => (x <? y) && strictly_ascending t
  | _ => true
  end.

(** A non-negative [int32]. *)
Definition is_key (k : Z) : Prop := 0 <= k <= Int32.max_int.

(** Number of keys of [l] below [k]: the rank [k] has, or would have. *)
Fixpoint rank (l : list Z) (k : Z) : Z :=
  match l with
  | [] => 0
  | x :: t => (if x <? k then 1 else 0) + rank t k
  end.

(** The counter after [n] increments, starting from [c0]. *)
Fixpoint running_count (c0 : Z) (n : nat) : Z :=
  match n with
  | O => c0
  | S n' => Int32.wrap (running_count c0 n' + 1)
  end.

(** ceil(x / 64) over the integers. *)
Definition ceil_div64 (x : Z) : Z := (x + 63) / 64.

(** "capacity = last_key + 1 (0 if input empty)", over the integers. *)
Definition spec_capacity (index : list Z) : Z :=
  match last index with
  | Some l => l + 1
  | None => 0
  end.

(** The bound the ascent check holds once the keys [pre] went through
    it, when it held [nxt] before them: the [nxt] of [InitIndexBitmap]. *)
Definition next_after (nxt : Z) (pre : list Z) : Z :=
  match last pre with
  | Some l => l + 1
  | None => nxt
  end.

(** Number of set bits in a run of bitmap words. *)
Fixpoint ones_total (bm : list Z) : Z :=
  match bm with
  | [] => 0
  | w :: rest => bits.OnesCount64 w + ones_total rest
  end.

(** ** The representation invariant

    [built_inv c0 l a]: the structure [a] indexes exactly the keys of [l],
    inserted one after the other into a structure whose counter was [c0]
    when the first key arrived. *)

Record built_inv (c0 : Z) (l : list Z) (a : Array32) : Prop := {
  inv_len : length (Offsets a) = length (Bitmaps a);
  inv_cap : 64 * Z.of_nat (length (Bitmaps a)) < Int32.half;
  inv_keys : forall x, x ∈ l -> 0 <= x < 64 * Z.of_nat (length (Bitmaps a));
  inv_cnt : Cnt a = running_count c0 (length l);
  inv_bits : forall (b : nat) (w j : Z),
      Bitmaps a !! b = Some w -> 0 <= j ->
      (Z.testbit w j = true <-> j < 64 /\ 64 * Z.of_nat b + j ∈ l);
  inv_offs : forall (b : nat) (w : Z),
      Bitmaps a !! b = Some w -> w <> 0 ->
      Offsets a !! b
      = Some (running_count c0 (Z.to_nat (rank l (64 * Z.of_nat b))))
}.

(** * The embedding on concrete inputs *)

Example bmBit_130 : bmBit 130 = (2, 2).
Proof. reflexivity. Qed.

Example bmBit_minus_1 : bmBit (-1) = (-1, 63).
Proof. reflexivity. Qed.

Example hasBit_minus_1 : hasBit (-1) = (0, 63).
Proof. reflexivity. Qed.

Example OnesCount64Before_6_2 : bits.OnesCount64Before 6 2 = 1.
Proof. reflexivity. Qed.

Example InitIndexBitmap_1_2_64_130 :
  InitIndexBitmap zero_Array32 [1; 2; 64; 130]
  = ({| Cnt := 4; Bitmaps := [6; 1; 4]; Offsets := [0; 2; 3]; Elts := [] |},
     Return None).
Proof. reflexivity. Qed.

Example InitIndexBitmap_empty :
  InitIndexBitmap zero_Array32 [] = (zero_Array32, Return None).
Proof. reflexivity. Qed.

Example InitIndexBitmap_5_3 :
  InitIndexBitmap zero_Array32 [5; 3]
  = ({| Cnt := 1; Bitmaps := [32]; Offsets := [0]; Elts := [] |},
     Return (Some ErrIndexNotAscending)).
Proof. reflexivity. Qed.

Example capacity_wraps : capacity_of [2147483647] = -2147483648.
Proof. reflexivity. Qed.

Example bmCnt_at_the_edge :
  bmCnt_of [2147483583] = 33554431 /\ bmCnt_of [2147483584] = -33554432.
Proof. split; reflexivity. Qed.

(** * Arithmetic of the fixed-width integers *)

Ltac unfold_int :=
  unfold Int32.quot, Int32.wrap, Int32.in_range, Int32.max_int, Int32.half,
    Int32.modulus, Uint32.wrap, Uint32.modulus, Uint64.shl, Uint64.sub,
    Uint64.wrap, Uint64.modulus, bmWidth, bmMask in *.

Ltac int_lia := unfold_int; Z.to_euclidean_division_equations; lia.

Ltac solve_keys :=
  repeat (constructor;
          [unfold is_key, Int32.in_range, Int32.max_int, Int32.half; lia|]);
  constructor.

Lemma wrap_small (z : Z) : Int32.in_range z -> Int32.wrap z = z.
Proof. int_lia. Qed.

Lemma wrap_in_range (z : Z) : Int32.in_range (Int32.wrap z).
Proof. int_lia. Qed.

Lemma bmBit_div_mod (idx : Z) : bmBit idx = (idx / 64, idx mod 64).
Proof.
  unfold bmBit. f_equal.
  - now rewrite Z.shiftr_div_pow2 by lia.
  - change 63 with (Z.ones 6). now rewrite Z.land_ones by lia.
Qed.

Lemma hasBit_div_mod (idx : Z) :
  0 <= idx < Int32.half -> hasBit idx = (idx / 64, idx mod 64).
Proof.
  intros H. unfold hasBit. f_equal.
  - int_lia.
  - unfold bmMask. change 63 with (Z.ones 6). now rewrite Z.land_ones by lia.
Qed.

(** Bit [j] of a word, as the queries test it. *)
Lemma shiftr_land_1 (w j : Z) :
  0 <= j -> (Z.land (Z.shiftr w j) 1 =? 0) = negb (Z.testbit w j).
Proof.
  intros Hj. change 1 with (Z.ones 1). rewrite Z.land_ones by lia.
  replace (Z.testbit w j) with (Z.testbit (Z.shiftr w j) 0)
    by (rewrite Z.shiftr_spec by lia; f_equal; lia).
  rewrite Z.bit0_odd.
  change (2 ^ 1) with 2. rewrite Zmod_odd.
  now destruct (Z.odd (Z.shiftr w j)).
Qed.

Lemma shl_1_testbit (j i : Z) :
  0 <= j < 64 -> 0 <= i -> Z.testbit (Uint64.shl 1 j) i = (j =? i).
Proof.
  intros Hj Hi. unfold Uint64.shl, Uint64.wrap.
  rewrite Z.shiftl_1_l, Z.mod_small.
  - now apply Z.pow2_bits_eqb.
  - split; [apply Z.pow_nonneg; lia|].
    change Uint64.modulus with (2 ^ 64). apply Z.pow_lt_mono_r; lia.
Qed.

(** A word without a set bit is zero. *)
Lemma no_bit_zero (w : Z) :
  (forall j, 0 <= j -> Z.testbit w j = false) -> w = 0.
Proof.
  intros H. apply Z.bits_inj'. intros n Hn. now rewrite H, Z.bits_0.
Qed.

(** ** The rank primitive *)

Lemma count_bits_ext (w v : Z) (n : nat) :
  (forall i, 0 <= i < Z.of_nat n -> Z.testbit w i = Z.testbit v i) ->
  bits.count_bits w n = bits.count_bits v n.
Proof.
  induction n as [|n IH]; intros H; simpl; [reflexivity|].
  rewrite IH, H by (intros; try apply H; lia). reflexivity.
Qed.

Lemma count_bits_bounds (w : Z) (n : nat) :
  0 <= bits.count_bits w n <= Z.of_nat n.
Proof.
  induction n as [|n IH]; simpl bits.count_bits; [lia|].
  destruct (Z.testbit w (Z.of_nat n)); simpl Z.b2z; lia.
Qed.

(** Bits at or above [p] do not count once they are masked off. *)
Lemma count_bits_masked (w : Z) (p n : nat) :
  bits.count_bits (Z.land w (Z.ones (Z.of_nat p))) n
  = bits.count_bits w (Nat.min p n).
Proof.
  induction n as [|n IH]; [now rewrite Nat.min_0_r|].
  simpl bits.count_bits. rewrite IH, Z.land_spec, Z.testbit_ones_nonneg by lia.
  destruct (Nat.le_gt_cases p n) as [Hle|Hgt].
  - rewrite !Nat.min_l by lia.
    replace (Z.of_nat n <? Z.of_nat p) with false
      by (symmetry; apply Z.ltb_ge; lia).
    rewrite andb_false_r. simpl. lia.
  - rewrite !Nat.min_r by lia.
    replace (Z.of_nat n <? Z.of_nat p) with true
      by (symmetry; apply Z.ltb_lt; lia).
    now rewrite andb_true_r.
Qed.

(** The modelled [OnesCount64Before] counts the set bits strictly below
    the given position. *)
Lemma OnesCount64Before_count (w : Z) (p : nat) :
  (p < 64)%nat ->
  bits.OnesCount64Before w (Z.of_nat p) = bits.count_bits w p.
Proof.
  intros Hp. unfold bits.OnesCount64Before, bits.OnesCount64.
  assert (Hmask : Uint64.sub (Uint64.shl 1 (Z.of_nat p)) 1 = Z.ones (Z.of_nat p)).
  { rewrite Z.ones_equiv. unfold Uint64.sub, Uint64.shl, Uint64.wrap.
    rewrite Z.shiftl_1_l.
    assert (0 < 2 ^ Z.of_nat p < Uint64.modulus).
    { split; [apply Z.pow_pos_nonneg; lia|].
      change Uint64.modulus with (2 ^ 64). apply Z.pow_lt_mono_r; lia. }
    rewrite (Z.mod_small (2 ^ Z.of_nat p)) by lia.
    rewrite Z.mod_small by lia. lia. }
  rewrite Hmask.
  rewrite (count_bits_ext _ (Z.land w (Z.ones (Z.of_nat p)))).
  - rewrite count_bits_masked. now rewrite Nat.min_l by lia.
  - intros i Hi. unfold Uint64.wrap. change Uint64.modulus with (2 ^ 64).
    apply Z.mod_pow2_bits_low. lia.
Qed.

(** * Slices *)

Lemma slice_get_Some {A : Type} (s : list A) (i : Z) (v : A) :
  slice_get s i = Some v <-> 0 <= i /\ s !! Z.to_nat i = Some v.
Proof.
  unfold slice_get. destruct (Z.leb_spec 0 i); split;
    try tauto; try (intros [? ?]; lia); discriminate.
Qed.

Lemma slice_get_None {A : Type} (s : list A) (i : Z) :
  slice_get s i = None <-> i < 0 \/ Z.of_nat (length s) <= i.
Proof.
  unfold slice_get. destruct (Z.leb_spec 0 i).
  - rewrite lookup_ge_None. lia.
  - split; [lia | reflexivity].
Qed.

Lemma slice_get_in_bounds {A : Type} (s : list A) (i : Z) :
  0 <= i < Z.of_nat (length s) -> exists v, slice_get s i = Some v.
Proof.
  intros H. destruct (slice_get s i) as [v|] eqn:E; [now exists v|].
  apply slice_get_None in E. lia.
Qed.

Lemma slice_set_length {A : Type} (s : list A) (i : Z) (v : A) :
  length (slice_set s i v) = length s.
Proof. apply length_insert. Qed.

(** * Ranks in ascending lists *)

Lemma rank_app (l1 l2 : list Z) (k : Z) :
  rank (l1 ++ l2) k = rank l1 k + rank l2 k.
Proof. induction l1 as [|x l1 IH]; simpl; [reflexivity | rewrite IH; lia]. Qed.

Lemma rank_snoc (l : list Z) (x k : Z) :
  rank (l ++ [x]) k = rank l k + (if x <? k then 1 else 0).
Proof. rewrite rank_app. cbn [rank]. lia. Qed.

Lemma rank_all_below (l : list Z) (k : Z) :
  (forall x, x ∈ l -> x < k) -> rank l k = Z.of_nat (length l).
Proof.
  induction l as [|x l IH]; intros H; [reflexivity|].
  cbn [rank length]. rewrite IH by (intros; apply H; now right).
  specialize (H x ltac:(left)). destruct (Z.ltb_spec x k); lia.
Qed.

Lemma rank_none_below (l : list Z) (k : Z) :
  (forall x, x ∈ l -> k <= x) -> rank l k = 0.
Proof.
  induction l as [|x l IH]; intros H; [reflexivity|].
  cbn [rank]. rewrite IH by (intros; apply H; now right).
  specialize (H x ltac:(left)). destruct (Z.ltb_spec x k); lia.
Qed.

Lemma rank_bounds (l : list Z) (k : Z) : 0 <= rank l k <= Z.of_nat (length l).
Proof.
  induction l as [|x l IH]; cbn [rank length]; [lia|].
  destruct (x <? k); lia.
Qed.

(** Moving the bound past [k] counts [k] when it is a key. *)
Lemma rank_succ (l : list Z) (k : Z) :
  NoDup l -> rank l (k + 1) = rank l k + Z.b2z (bool_decide (k ∈ l)).
Proof.
  induction l as [|x l IH]; intros Hnd; [reflexivity|].
  apply NoDup_cons in Hnd as [Hx Hnd]. cbn [rank]. rewrite IH by assumption.
  destruct (Z.eq_dec x k) as [->|Hne].
  - rewrite (bool_decide_eq_true_2 (k ∈ k :: l)) by left.
    rewrite (bool_decide_eq_false_2 (k ∈ l)) by assumption.
    destruct (Z.ltb_spec k (k + 1)), (Z.ltb_spec k k); simpl; lia.
  - assert (Hiff : bool_decide (k ∈ x :: l) = bool_decide (k ∈ l)).
    { apply bool_decide_ext. rewrite elem_of_cons. intuition congruence. }
    rewrite Hiff.
    destruct (Z.ltb_spec x (k + 1)), (Z.ltb_spec x k); lia.
Qed.

Lemma strictly_ascending_cons (x : Z) (l : list Z) :
  strictly_ascending (x :: l) = true <->
  strictly_ascending l = true /\ forall y, y ∈ l -> x < y.
Proof.
  revert x. induction l as [|y l IH]; intros x.
  - simpl. split; [|reflexivity]. intros _. split; [reflexivity|].
    intros y Hy. now apply elem_of_nil in Hy.
  - change (strictly_ascending (x :: y :: l))
      with ((x <? y) && strictly_ascending (y :: l)).
    rewrite andb_true_iff, Z.ltb_lt. split.
    + intros [Hxy Hs]. split; [assumption|]. intros z Hz.
      apply elem_of_cons in Hz as [->|Hz]; [assumption|].
      apply IH in Hs as [_ Hs]. specialize (Hs z Hz). lia.
    + intros [Hs Hall]. split; [apply Hall; left | assumption].
Qed.

Lemma strictly_ascending_NoDup (l : list Z) :
  strictly_ascending l = true -> NoDup l.
Proof.
  induction l as [|x l IH]; intros H; [constructor|].
  apply strictly_ascending_cons in H as [Hs Hall].
  apply NoDup_cons. split; [|auto].
  intros Hx. specialize (Hall x Hx). lia.
Qed.

(** In a strictly ascending list the key at position [i] has rank [i]. *)
Lemma rank_lookup (l : list Z) (i : nat) (k : Z) :
  strictly_ascending l = true -> l !! i = Some k -> rank l k = Z.of_nat i.
Proof.
  revert i. induction l as [|x l IH]; intros i Hs Hi; [discriminate|].
  apply strictly_ascending_cons in Hs as [Hs Hall].
  destruct i as [|i]; cbn [rank].
  - injection Hi as ->. rewrite rank_none_below.
    + destruct (Z.ltb_spec k k); lia.
    + intros y Hy. specialize (Hall y Hy). lia.
  - change ((x :: l) !! S i) with (l !! i) in Hi.
    rewrite (IH i Hs Hi).
    specialize (Hall k (list_elem_of_lookup_2 _ _ _ Hi)).
    destruct (Z.ltb_spec x k); lia.
Qed.

(** * One insertion preserves the invariant *)

(** What a successful [appendIndex] returns, spelled out. *)
Lemma appendIndex_Return (a a' : Array32) (x : Z) :
  appendIndex a x = (a', Return tt) ->
  exists w,
    0 <= x / 64 /\ Bitmaps a !! Z.to_nat (x / 64) = Some w /\
    ((Z.to_nat (x / 64) < length (Offsets a))%nat \/ w <> 0) /\
    a' = {| Cnt := Int32.wrap (Cnt a + 1);
            Bitmaps := <[Z.to_nat (x / 64) :=
                           Z.lor w (Uint64.shl 1 (x mod 64))]> (Bitmaps a);
            Offsets := if w =? 0
                       then <[Z.to_nat (x / 64) := Cnt a]> (Offsets a)
                       else Offsets a;
            Elts := Elts a |}.
Proof.
  unfold appendIndex. rewrite bmBit_div_mod.
  assert (Hw : Uint64.wrap (x mod 64) = x mod 64) by int_lia.
  rewrite Hw.
  destruct (slice_get (Bitmaps a) (x / 64)) as [w|] eqn:Eb; [|discriminate].
  apply slice_get_Some in Eb as [Hnn Eb].
  destruct (Z.eqb_spec w 0) as [->|Hne].
  - destruct (slice_get (Offsets a) (x / 64)) as [o|] eqn:Eo; [|discriminate].
    apply slice_get_Some in Eo as [_ Eo]. apply lookup_lt_Some in Eo.
    intros [= <-]. exists 0. unfold slice_set. repeat split; auto.
  - intros [= <-]. exists w. unfold slice_set. repeat split; auto.
    destruct (Z.eqb_spec w 0); [contradiction | reflexivity].
Qed.

Lemma appendIndex_inv (c0 : Z) (pre : list Z) (a a' : Array32) (x : Z) :
  built_inv c0 pre a ->
  0 <= x ->
  (forall y, y ∈ pre -> y < x) ->
  appendIndex a x = (a', Return tt) ->
  built_inv c0 (pre ++ [x]) a'.
Proof.
  intros [Hlen Hcap Hkeys Hcnt Hbits Hoffs] Hx Hbelow Happ.
  apply appendIndex_Return in Happ as (w & Hq & Hw & _ & ->).
  set (bx := Z.to_nat (x / 64)) in *.
  assert (Hbx : Z.of_nat bx = x / 64) by (unfold bx; lia).
  assert (Hbxlt : (bx < length (Bitmaps a))%nat) by (eapply lookup_lt_Some; eauto).
  assert (Hmod : 0 <= x mod 64 < 64) by (apply Z.mod_pos_bound; lia).
  assert (Hdm : x = 64 * (x / 64) + x mod 64) by (apply Z.div_mod; lia).
  (* no earlier key lies at or beyond the block of [x] once that block
     holds no earlier key *)
  assert (Hfirst : w = 0 -> forall y, y ∈ pre -> y < 64 * Z.of_nat bx).
  { intros -> y Hy. destruct (Z.lt_ge_cases y (64 * Z.of_nat bx)) as [|Hge];
      [assumption|exfalso].
    specialize (Hbelow y Hy).
    assert (Hj : 0 <= y - 64 * Z.of_nat bx < 64) by lia.
    destruct (Hbits bx 0 (y - 64 * Z.of_nat bx) Hw ltac:(lia)) as [_ Hin].
    rewrite Z.bits_0 in Hin. discriminate Hin. split; [lia|].
    now replace (64 * Z.of_nat bx + (y - 64 * Z.of_nat bx)) with y by lia. }
  split; cbn [Cnt Bitmaps Offsets Elts].
  - rewrite length_insert. destruct (w =? 0); [rewrite length_insert|]; exact Hlen.
  - now rewrite length_insert.
  - intros y Hy. rewrite length_insert.
    apply elem_of_app in Hy as [Hy|Hy]; [auto|].
    apply list_elem_of_singleton in Hy as ->. lia.
  - rewrite Hcnt, length_app. cbn [length]. now rewrite Nat.add_1_r.
  - intros b w0 j Hb Hj. rewrite elem_of_app, list_elem_of_singleton.
    destruct (Nat.eq_dec b bx) as [->|Hne].
    + rewrite list_lookup_insert_eq in Hb by assumption. injection Hb as <-.
      rewrite Z.lor_spec, orb_true_iff, (Hbits bx w j Hw Hj).
      rewrite shl_1_testbit, Z.eqb_eq by lia.
      clearbody bx. clear -Hbx Hmod Hdm Hj. intuition lia.
    + rewrite list_lookup_insert_ne in Hb by congruence.
      rewrite (Hbits b w0 j Hb Hj). split; [tauto|].
      intros [Hlt [Hin| Heq]]; [tauto|exfalso].
      apply Hne. apply Nat2Z.inj. rewrite Hbx.
      apply (Z.div_unique x 64 (Z.of_nat b) j); lia.
  - intros b w0 Hb Hnz. rewrite rank_snoc.
    destruct (Nat.eq_dec b bx) as [->|Hne].
    + destruct (Z.ltb_spec x (64 * Z.of_nat bx)); [lia|].
      rewrite Z.add_0_r.
      destruct (Z.eqb_spec w 0) as [Hz|Hz].
      * rewrite list_lookup_insert_eq by lia.
        rewrite (rank_all_below pre), Nat2Z.id by auto. now rewrite Hcnt.
      * eauto.
    + rewrite list_lookup_insert_ne in Hb by congruence.
      assert (Hle : 64 * Z.of_nat b <= x).
      { destruct (Z.le_gt_cases (64 * Z.of_nat b) x) as [|Hgt];
          [assumption|exfalso].
        apply Hnz. apply no_bit_zero. intros j Hj.
        destruct (Z.testbit w0 j) eqn:Et; [exfalso|reflexivity].
        apply (Hbits b w0 j Hb Hj) in Et as [_ Hin].
        specialize (Hbelow _ Hin). lia. }
      destruct (Z.ltb_spec x (64 * Z.of_nat b)); [lia|].
      rewrite Z.add_0_r.
      destruct (w =? 0); [rewrite list_lookup_insert_ne by congruence|]; eauto.
Qed.

(** * The construction loop *)

Lemma appendIndex_lengths (a : Array32) (x : Z) :
  length (Bitmaps (appendIndex a x).1) = length (Bitmaps a) /\
  length (Offsets (appendIndex a x).1) = length (Offsets a).
Proof.
  unfold appendIndex. destruct (bmBit x) as [iBm iBit].
  destruct (slice_get (Bitmaps a) iBm) as [w|]; [|auto].
  destruct (w =? 0); [destruct (slice_get (Offsets a) iBm)|]; cbn;
    rewrite ?slice_set_length; auto.
Qed.

(** Whatever way the loop ends, the two slices keep their lengths. *)
Lemma InitIndexBitmap_loop_lengths (index : list Z) (a : Array32) (nxt : Z) :
  length (Bitmaps (InitIndexBitmap_loop a nxt index).1) = length (Bitmaps a) /\
  length (Offsets (InitIndexBitmap_loop a nxt index).1) = length (Offsets a).
Proof.
  revert a nxt.
  induction index as [|x rest IH]; intros a nxt; cbn [InitIndexBitmap_loop];
    [auto|].
  destruct (x <? nxt); [auto|].
  pose proof (appendIndex_lengths a x) as [Hb Ho].
  destruct (appendIndex a x) as [a1 [u|p]]; cbn [fst] in *.
  - destruct (IH a1 (Int32.wrap (x + 1))) as [E1 E2]. rewrite E1, E2. auto.
  - auto.
Qed.

Lemma InitIndexBitmap_loop_inv (c0 : Z) (rest pre : list Z)
    (a a' : Array32) (nxt : Z) :
  built_inv c0 pre a ->
  0 <= nxt ->
  (forall y, y ∈ pre -> y < nxt) ->
  InitIndexBitmap_loop a nxt rest = (a', Return None) ->
  built_inv c0 (pre ++ rest) a' /\
  strictly_ascending rest = true /\
  (forall x, x ∈ rest -> nxt <= x).
Proof.
  revert pre a nxt. induction rest as [|x rest IH]; intros pre a nxt Hinv Hn Hpre.
  - cbn. intros [= <-]. rewrite app_nil_r. split; [assumption|].
    split; [reflexivity|]. intros x Hx. now apply elem_of_nil in Hx.
  - cbn [InitIndexBitmap_loop]. destruct (Z.ltb_spec x nxt) as [|Hge];
      [discriminate|].
    destruct (appendIndex a x) as [a1 [[]|p]] eqn:Happ; [|discriminate].
    intros Hloop.
    assert (Hinv1 : built_inv c0 (pre ++ [x]) a1).
    { apply (appendIndex_inv c0 pre a a1 x); auto; try lia.
      intros y Hy. specialize (Hpre y Hy). lia. }
    assert (Hxr : 0 <= x < Int32.half - 1).
    { pose proof (inv_keys _ _ _ Hinv1 x) as Hk. pose proof (inv_cap _ _ _ Hinv1).
      specialize (Hk ltac:(apply elem_of_app; right; left)). lia. }
    rewrite wrap_small in Hloop by (unfold_int; lia).
    apply (IH (pre ++ [x])) in Hloop as (Hfin & Hasc & Hall); [|assumption|lia|].
    + rewrite <- app_assoc in Hfin. split; [exact Hfin|]. split.
      * apply strictly_ascending_cons. split; [assumption|].
        intros y Hy. specialize (Hall y Hy). lia.
      * intros y Hy. apply elem_of_cons in Hy as [->|Hy]; [lia|].
        specialize (Hall y Hy). lia.
    + intros y Hy. apply elem_of_app in Hy as [Hy|Hy].
      * specialize (Hpre y Hy). lia.
      * apply list_elem_of_singleton in Hy. lia.
Qed.

(** The number of words allocated never exceeds 2^25 - 1. *)
Lemma bmCnt_of_upper (index : list Z) : 64 * bmCnt_of index < Int32.half.
Proof. unfold bmCnt_of. generalize (capacity_of index). intros c. int_lia. Qed.

Lemma built_inv_alloc (a : Array32) (n : nat) :
  64 * Z.of_nat n < Int32.half ->
  built_inv (Cnt a) []
    {| Cnt := Cnt a; Bitmaps := replicate n 0; Offsets := replicate n 0;
       Elts := Elts a |}.
Proof.
  intros Hn. split; cbn [Cnt Bitmaps Offsets Elts].
  - now rewrite !length_replicate.
  - now rewrite length_replicate.
  - intros x Hx. now apply elem_of_nil in Hx.
  - reflexivity.
  - intros b w j Hb Hj. apply lookup_replicate in Hb as [-> _].
    rewrite Z.bits_0. split; [discriminate|].
    intros [_ Hin]. now apply elem_of_nil in Hin.
  - intros b w Hb Hnz. apply lookup_replicate in Hb as [-> _]. contradiction.
Qed.

(** A successful build leaves a structure that represents its input, and
    only strictly ascending lists of non-negative keys build successfully. *)
Lemma InitIndexBitmap_Return_nil (a a' : Array32) (index : list Z) :
  InitIndexBitmap a index = (a', Return None) ->
  built_inv (Cnt a) index a' /\
  strictly_ascending index = true /\
  (forall x, x ∈ index -> 0 <= x).
Proof.
  unfold InitIndexBitmap. pose proof (bmCnt_of_upper index) as Hup.
  destruct (Z.ltb_spec (bmCnt_of index) 0); [discriminate|].
  intros Hloop.
  apply (InitIndexBitmap_loop_inv (Cnt a) index []) in Hloop; auto; try lia.
  - apply built_inv_alloc. lia.
  - intros y Hy. now apply elem_of_nil in Hy.
Qed.

(** * The queries on a structure that satisfies the invariant *)

Lemma len32_Bitmaps (c0 : Z) (l : list Z) (a : Array32) :
  built_inv c0 l a -> len32 (Bitmaps a) = Z.of_nat (length (Bitmaps a)).
Proof.
  intros Hinv. pose proof (inv_cap _ _ _ Hinv). unfold len32.
  apply wrap_small. unfold_int. lia.
Qed.

(** The word a non-negative key falls into, and what its bit says. *)
Lemma key_word (c0 : Z) (l : list Z) (a : Array32) (k : Z) :
  built_inv c0 l a ->
  0 <= k ->
  (Z.of_nat (length (Bitmaps a)) <= k / 64 /\ k ∉ l) \/
  (exists w, k / 64 < Z.of_nat (length (Bitmaps a)) /\
             slice_get (Bitmaps a) (k / 64) = Some w /\
             Z.testbit w (k mod 64) = bool_decide (k ∈ l)).
Proof.
  intros Hinv Hk.
  assert (Hmod : 0 <= k mod 64 < 64) by (apply Z.mod_pos_bound; lia).
  assert (Hdm : k = 64 * (k / 64) + k mod 64) by (apply Z.div_mod; lia).
  assert (Hq : 0 <= k / 64) by (apply Z.div_pos; lia).
  destruct (Z.le_gt_cases (Z.of_nat (length (Bitmaps a))) (k / 64)) as [Hge|Hlt].
  - left. split; [assumption|]. intros Hin.
    pose proof (inv_keys _ _ _ Hinv k Hin). lia.
  - right. destruct (slice_get_in_bounds (Bitmaps a) (k / 64)) as [w Hw]; [lia|].
    exists w. split; [assumption|]. split; [assumption|].
    apply slice_get_Some in Hw as [_ Hw].
    pose proof (inv_bits _ _ _ Hinv _ w (k mod 64) Hw ltac:(lia)) as Hb.
    rewrite Z2Nat.id, <- Hdm in Hb by assumption.
    destruct (Z.testbit w (k mod 64)).
    + symmetry. apply bool_decide_eq_true_2. now apply Hb.
    + symmetry. apply bool_decide_eq_false_2. intros Hin.
      assert (false = true) by (apply Hb; split; [lia|assumption]).
      discriminate.
Qed.

Lemma Has_built (c0 : Z) (l : list Z) (a : Array32) (k : Z) :
  built_inv c0 l a ->
  is_key k ->
  Has a k = Return (bool_decide (k ∈ l)).
Proof.
  intros Hinv Hk. unfold is_key, Int32.max_int in Hk. unfold Has.
  rewrite hasBit_div_mod by (unfold_int; lia).
  rewrite (len32_Bitmaps _ _ _ Hinv).
  assert (Hmod : 0 <= k mod 64 < 64) by (apply Z.mod_pos_bound; lia).
  assert (Hu : Uint32.wrap (k mod 64) = k mod 64) by int_lia.
  destruct (key_word c0 l a k Hinv ltac:(lia)) as [[Hge Hnin]|(w & Hlt & Hw & Hb)].
  - destruct (Z.ltb_spec (k / 64) (Z.of_nat (length (Bitmaps a)))); [lia|].
    now rewrite bool_decide_eq_false_2.
  - destruct (Z.ltb_spec (k / 64) (Z.of_nat (length (Bitmaps a)))); [|lia].
    rewrite Hw, Hu, shiftr_land_1, negb_involutive by lia. now rewrite Hb.
Qed.

(** [GetEltIndex] on a key whose bit is set: the block base plus the
    number of set bits below the key's bit. *)
Lemma GetEltIndex_present (c0 : Z) (l : list Z) (a : Array32) (k w : Z) :
  built_inv c0 l a ->
  0 <= k ->
  slice_get (Bitmaps a) (k / 64) = Some w ->
  Z.testbit w (k mod 64) = true ->
  exists base,
    slice_get (Offsets a) (k / 64) = Some base /\
    base = running_count c0 (Z.to_nat (rank l (64 * (k / 64)))) /\
    GetEltIndex a k =
      Return (Int32.wrap (base + bits.count_bits w (Z.to_nat (k mod 64))), true).
Proof.
  intros Hinv Hk Hw Hbit.
  assert (Hmod : 0 <= k mod 64 < 64) by (apply Z.mod_pos_bound; lia).
  assert (Hu : Uint64.wrap (k mod 64) = k mod 64) by int_lia.
  pose proof Hw as Hw'. apply slice_get_Some in Hw' as [Hq Hlk].
  assert (Hnz : w <> 0) by (intros ->; now rewrite Z.bits_0 in Hbit).
  pose proof (inv_offs _ _ _ Hinv _ w Hlk Hnz) as Ho.
  rewrite Z2Nat.id in Ho by assumption.
  eexists. split; [|split; [reflexivity|]].
  { apply slice_get_Some. split; [assumption|exact Ho]. }
  unfold GetEltIndex. rewrite bmBit_div_mod, (len32_Bitmaps _ _ _ Hinv).
  apply lookup_lt_Some in Hlk.
  destruct (Z.geb_spec (k / 64) (Z.of_nat (length (Bitmaps a)))); [lia|].
  rewrite Hw, Hu, shiftr_land_1, Hbit by lia. cbn [negb].
  replace (slice_get (Offsets a) (k / 64))
    with (Some (running_count c0 (Z.to_nat (rank l (64 * (k / 64))))))
    by (symmetry; apply slice_get_Some; auto).
  rewrite <- (Z2Nat.id (k mod 64)) at 1 by lia.
  rewrite OnesCount64Before_count by lia.
  pose proof (count_bits_bounds w (Z.to_nat (k mod 64))).
  rewrite (wrap_small (bits.count_bits _ _)) by (unfold_int; lia).
  reflexivity.
Qed.

Lemma GetEltIndex_absent (c0 : Z) (l : list Z) (a : Array32) (k : Z) :
  built_inv c0 l a ->
  0 <= k ->
  k ∉ l ->
  GetEltIndex a k = Return (0, false).
Proof.
  intros Hinv Hk Hnin.
  assert (Hmod : 0 <= k mod 64 < 64) by (apply Z.mod_pos_bound; lia).
  assert (Hu : Uint64.wrap (k mod 64) = k mod 64) by int_lia.
  unfold GetEltIndex. rewrite bmBit_div_mod, (len32_Bitmaps _ _ _ Hinv).
  destruct (key_word c0 l a k Hinv Hk) as [[Hge _]|(w & Hlt & Hw & Hb)].
  - destruct (Z.geb_spec (k / 64) (Z.of_nat (length (Bitmaps a)))); [|lia].
    reflexivity.
  - destruct (Z.geb_spec (k / 64) (Z.of_nat (length (Bitmaps a)))); [lia|].
    rewrite Hw, Hu, shiftr_land_1, Hb by lia.
    now rewrite bool_decide_eq_false_2.
Qed.

(** Within a block, ranks advance with the set bits of the block's word. *)
Lemma rank_bits (l : list Z) (w B : Z) (n : nat) :
  NoDup l ->
  (forall j, 0 <= j -> Z.testbit w j = true <-> j < 64 /\ B + j ∈ l) ->
  (n <= 64)%nat ->
  rank l (B + Z.of_nat n) = rank l B + bits.count_bits w n.
Proof.
  intros Hnd Hb. induction n as [|n IH]; intros Hn.
  - cbn [bits.count_bits]. rewrite Z.add_0_r, Z.add_0_r. reflexivity.
  - cbn [bits.count_bits]. rewrite Z.add_assoc, <- IH by lia.
    replace (B + Z.of_nat (S n)) with (B + Z.of_nat n + 1) by lia.
    rewrite rank_succ by assumption. do 2 f_equal.
    destruct (Z.testbit w (Z.of_nat n)) eqn:E.
    + apply bool_decide_eq_true_2. apply Hb in E; [tauto|lia].
    + apply bool_decide_eq_false_2. intros Hin.
      assert (Z.testbit w (Z.of_nat n) = true)
        by (apply Hb; lia || (split; [lia|assumption])).
      congruence.
Qed.

Lemma running_count_0 (n : nat) :
  Z.of_nat n < Int32.half -> running_count 0 n = Z.of_nat n.
Proof.
  induction n as [|n IH]; intros Hn; [reflexivity|].
  cbn [running_count]. rewrite IH by lia.
  rewrite wrap_small by (unfold_int; lia). lia.
Qed.

(** In an ascending list of keys no smaller than [m], the key at position
    [i] is at least [m + i]. *)
Lemma ascending_lookup_ge (l : list Z) (m : Z) (i : nat) (k : Z) :
  strictly_ascending l = true ->
  (forall x, x ∈ l -> m <= x) ->
  l !! i = Some k ->
  m + Z.of_nat i <= k.
Proof.
  revert m i. induction l as [|x l IH]; intros m i Hs Hm Hi; [discriminate|].
  apply strictly_ascending_cons in Hs as [Hs Hall].
  pose proof (Hm x ltac:(left)).
  destruct i as [|i].
  - injection Hi as ->. lia.
  - change ((x :: l) !! S i) with (l !! i) in Hi.
    pose proof (IH (x + 1) i Hs) as IH'.
    assert (forall y, y ∈ l -> x + 1 <= y)
      by (intros y Hy; specialize (Hall y Hy); lia).
    specialize (IH' ltac:(assumption) Hi). lia.
Qed.

Lemma strictly_ascending_app (l1 l2 : list Z) :
  strictly_ascending (l1 ++ l2) = true ->
  strictly_ascending l2 = true /\
  (forall y z, y ∈ l1 -> z ∈ l2 -> y < z).
Proof.
  induction l1 as [|x l1 IH]; intros Hs.
  - split; [exact Hs|]. intros y z Hy. now apply elem_of_nil in Hy.
  - change ((x :: l1) ++ l2) with (x :: (l1 ++ l2)) in Hs.
    apply strictly_ascending_cons in Hs as [Hs Hall].
    destruct (IH Hs) as [H2 Hlt]. split; [exact H2|].
    intros y z Hy Hz. apply elem_of_cons in Hy as [->|Hy]; [|auto].
    apply Hall, elem_of_app. now right.
Qed.

(** The last key of an ascending list bounds all the others. *)
Lemma strictly_ascending_le_last (l : list Z) (L x : Z) :
  strictly_ascending l = true -> last l = Some L -> x ∈ l -> x <= L.
Proof.
  intros Hs HL Hx. apply last_Some in HL as [l' ->].
  apply strictly_ascending_app in Hs as [_ Hlt].
  apply elem_of_app in Hx as [Hx|Hx].
  - specialize (Hlt x L Hx ltac:(left)). lia.
  - apply list_elem_of_singleton in Hx. lia.
Qed.

(** An ascending list of keys below [m] has at most [m] elements. *)
Lemma ascending_length_le (l : list Z) (m : Z) :
  strictly_ascending l = true ->
  0 <= m ->
  (forall x, x ∈ l -> 0 <= x < m) ->
  Z.of_nat (length l) <= m.
Proof.
  intros Hs Hm Hall. destruct (l !! pred (length l)) as [k|] eqn:E.
  - pose proof (ascending_lookup_ge l 0 _ k Hs
                  (fun x Hx => proj1 (Hall x Hx)) E) as Hge.
    pose proof (Hall k (list_elem_of_lookup_2 _ _ _ E)).
    apply lookup_lt_Some in E. lia.
  - apply lookup_ge_None in E. destruct l; cbn in *; lia.
Qed.

(** On a structure built from counter 0, base plus in-block count is the
    rank of the key, and needs no wrap-around. *)
Lemma base_plus_count_rank (l : list Z) (a : Array32) (k w : Z) :
  built_inv 0 l a ->
  strictly_ascending l = true ->
  0 <= k ->
  slice_get (Bitmaps a) (k / 64) = Some w ->
  let base := running_count 0 (Z.to_nat (rank l (64 * (k / 64)))) in
  base = rank l (64 * (k / 64)) /\
  base + bits.count_bits w (Z.to_nat (k mod 64)) = rank l k /\
  Int32.in_range (rank l k).
Proof.
  intros Hinv Hs Hk Hw base.
  assert (Hmod : 0 <= k mod 64 < 64) by (apply Z.mod_pos_bound; lia).
  assert (Hdm : k = 64 * (k / 64) + k mod 64) by (apply Z.div_mod; lia).
  apply slice_get_Some in Hw as [Hq Hw].
  pose proof (inv_cap _ _ _ Hinv) as Hcap.
  assert (Hlen : Z.of_nat (length l) < Int32.half).
  { pose proof (ascending_length_le l (64 * Z.of_nat (length (Bitmaps a))) Hs
                  ltac:(lia) (inv_keys _ _ _ Hinv)).
    lia. }
  pose proof (rank_bounds l (64 * (k / 64))) as Hr0.
  pose proof (rank_bounds l k) as Hr.
  assert (Hbase : base = rank l (64 * (k / 64))).
  { unfold base. rewrite running_count_0; lia. }
  split; [exact Hbase|]. split; [|unfold_int; lia].
  rewrite Hbase.
  assert (Hrb : rank l (64 * (k / 64) + Z.of_nat (Z.to_nat (k mod 64)))
                = rank l (64 * (k / 64))
                  + bits.count_bits w (Z.to_nat (k mod 64))).
  { apply rank_bits; [now apply strictly_ascending_NoDup| |lia].
    intros j Hj. pose proof (inv_bits _ _ _ Hinv _ w j Hw Hj) as Hb.
    now rewrite Z2Nat.id in Hb by assumption. }
  rewrite Z2Nat.id, <- Hdm in Hrb by lia. lia.
Qed.

(** * The writes of [appendIndex] *)

Lemma appendIndex_in_bounds (a : Array32) (x : Z) :
  length (Offsets a) = length (Bitmaps a) ->
  0 <= x < 64 * Z.of_nat (length (Bitmaps a)) ->
  exists a', appendIndex a x = (a', Return tt).
Proof.
  intros Hlen Hx. unfold appendIndex. rewrite bmBit_div_mod.
  assert (Hq : 0 <= x / 64 < Z.of_nat (length (Bitmaps a))).
  { split; [apply Z.div_pos; lia | apply Z.div_lt_upper_bound; lia]. }
  destruct (slice_get_in_bounds (Bitmaps a) (x / 64) Hq) as [w ->].
  destruct (slice_get_in_bounds (Offsets a) (x / 64)) as [o ->]; [lia|].
  destruct (w =? 0); eauto.
Qed.

Lemma InitIndexBitmap_loop_in_bounds (index : list Z) (a : Array32) (nxt : Z) :
  length (Offsets a) = length (Bitmaps a) ->
  64 * Z.of_nat (length (Bitmaps a)) < Int32.half ->
  0 <= nxt ->
  (forall x, x ∈ index -> x < 64 * Z.of_nat (length (Bitmaps a))) ->
  (InitIndexBitmap_loop a nxt index).2 <> Panics IndexOutOfRange.
Proof.
  revert a nxt. induction index as [|x rest IH]; intros a nxt Hlen Hcap Hn Hall;
    cbn [InitIndexBitmap_loop]; [discriminate|].
  destruct (Z.ltb_spec x nxt); [discriminate|].
  pose proof (Hall x ltac:(left)) as Hx.
  destruct (appendIndex_in_bounds a x Hlen ltac:(lia)) as [a1 Happ].
  pose proof (appendIndex_lengths a x) as [Hb Ho].
  rewrite Happ in *. cbn [fst] in *.
  apply IH.
  - congruence.
  - now rewrite Hb.
  - rewrite wrap_small; unfold_int; lia.
  - intros y Hy. rewrite Hb. apply Hall. now right.
Qed.

Lemma InitIndexBitmap_loop_ascending (index : list Z) (a : Array32) (nxt : Z) :
  length (Offsets a) = length (Bitmaps a) ->
  64 * Z.of_nat (length (Bitmaps a)) < Int32.half ->
  strictly_ascending index = true ->
  (forall x, x ∈ index -> 0 <= nxt <= x /\ x < 64 * Z.of_nat (length (Bitmaps a))) ->
  exists a', InitIndexBitmap_loop a nxt index = (a', Return None).
Proof.
  revert a nxt. induction index as [|x rest IH]; intros a nxt Hlen Hcap Hs Hall;
    cbn [InitIndexBitmap_loop]; [eauto|].
  pose proof (Hall x ltac:(left)) as Hx.
  apply strictly_ascending_cons in Hs as [Hs Hgt].
  destruct (Z.ltb_spec x nxt); [lia|].
  destruct (appendIndex_in_bounds a x Hlen ltac:(lia)) as [a1 Happ].
  pose proof (appendIndex_lengths a x) as [Hb Ho].
  rewrite Happ in *. cbn [fst] in *.
  apply IH; [congruence | now rewrite Hb | assumption |].
  intros y Hy. rewrite Hb. rewrite wrap_small by (unfold_int; lia).
  specialize (Hgt y Hy). specialize (Hall y ltac:(now right)). lia.
Qed.

(** The capacity computed from the last key covers that key, whenever the
    allocation goes through. *)
Lemma last_below_bmCnt (index : list Z) (L : Z) :
  last index = Some L ->
  Int32.in_range L ->
  0 <= bmCnt_of index ->
  L < 64 * bmCnt_of index.
Proof.
  unfold bmCnt_of, capacity_of. intros -> HL. int_lia.
Qed.

Lemma bmCnt_of_exact (index : list Z) (L : Z) :
  last index = Some L ->
  -64 <= L <= 2147483583 ->
  bmCnt_of index = ceil_div64 (L + 1).
Proof.
  unfold bmCnt_of, capacity_of, ceil_div64. intros -> HL. int_lia.
Qed.

(** Ascending keys that leave room for the capacity arithmetic always
    build. *)
Lemma InitIndexBitmap_succeeds (a : Array32) (index : list Z) :
  strictly_ascending index = true ->
  (forall x, x ∈ index -> 0 <= x <= 2147483583) ->
  exists a', InitIndexBitmap a index = (a', Return None).
Proof.
  intros Hs Hall. unfold InitIndexBitmap.
  pose proof (bmCnt_of_upper index) as Hup.
  assert (Hnn : 0 <= bmCnt_of index /\
                forall x, x ∈ index -> x < 64 * bmCnt_of index).
  { destruct (last index) as [L|] eqn:EL.
    - pose proof (last_Some_elem_of _ _ EL) as HL. specialize (Hall L HL).
      rewrite (bmCnt_of_exact index L EL) by lia.
      unfold ceil_div64. split; [apply Z.div_pos; lia|].
      intros x Hx. pose proof (strictly_ascending_le_last _ _ _ Hs EL Hx).
      Z.to_euclidean_division_equations. lia.
    - apply last_None in EL as ->. split.
      + unfold bmCnt_of, capacity_of. cbn [last]. now vm_compute.
      + intros x Hx. now apply elem_of_nil in Hx. }
  destruct Hnn as [Hnn Hlt].
  destruct (Z.ltb_spec (bmCnt_of index) 0); [lia|].
  apply InitIndexBitmap_loop_ascending; cbn [Bitmaps Offsets];
    rewrite ?length_replicate, ?Z2Nat.id by lia; auto.
  intros x Hx. specialize (Hall x Hx). specialize (Hlt x Hx). lia.
Qed.

(** An error return means the input was not ascending from [nxt] on. *)
Lemma InitIndexBitmap_loop_error (index : list Z) (a a' : Array32) (nxt : Z) :
  64 * Z.of_nat (length (Bitmaps a)) < Int32.half ->
  InitIndexBitmap_loop a nxt index = (a', Return (Some ErrIndexNotAscending)) ->
  ~ (strictly_ascending index = true /\ forall x, x ∈ index -> nxt <= x).
Proof.
  revert a nxt. induction index as [|x rest IH]; intros a nxt Hcap;
    cbn [InitIndexBitmap_loop]; [discriminate|].
  destruct (Z.ltb_spec x nxt) as [Hlt|Hge].
  - intros _ [_ Hall]. specialize (Hall x ltac:(left)). lia.
  - destruct (appendIndex a x) as [a1 [[]|p]] eqn:Happ; [|discriminate].
    pose proof (appendIndex_lengths a x) as [Hb _]. rewrite Happ in Hb.
    cbn [fst] in Hb.
    apply appendIndex_Return in Happ as (w & Hq & Hw & _).
    apply lookup_lt_Some in Hw.
    assert (Hx : x < 64 * Z.of_nat (length (Bitmaps a))).
    { Z.to_euclidean_division_equations. lia. }
    intros Hloop [Hs Hall].
    apply strictly_ascending_cons in Hs as [Hs Hgt].
    apply (IH a1 (Int32.wrap (x + 1))) in Hloop; [|now rewrite Hb].
    apply Hloop. split; [assumption|]. intros y Hy.
    assert (0 <= x).
    { Z.to_euclidean_division_equations. lia. }
    rewrite wrap_small by (unfold_int; lia).
    specialize (Hgt y Hy). lia.
Qed.

Lemma InitIndexBitmap_error_not_ascending (a a' : Array32) (index : list Z) :
  Forall is_key index ->
  InitIndexBitmap a index = (a', Return (Some ErrIndexNotAscending)) ->
  strictly_ascending index = false.
Proof.
  intros Hkeys. unfold InitIndexBitmap. pose proof (bmCnt_of_upper index).
  destruct (Z.ltb_spec (bmCnt_of index) 0); [discriminate|].
  intros Hloop. apply InitIndexBitmap_loop_error in Hloop.
  - destruct (strictly_ascending index); [exfalso|reflexivity].
    apply Hloop. split; [reflexivity|]. intros x Hx.
    rewrite Forall_forall in Hkeys. apply (Hkeys x Hx).
  - cbn [Bitmaps]. rewrite length_replicate. lia.
Qed.


(** * The properties of the specification *)

(** C1 (round trip). For a strictly ascending list of non-negative int32
    keys, once [InitIndexBitmap] has returned nil on a structure whose
    counter was 0, [GetEltIndex k] returns [(i, true)] for the key [k] at
    position [i] of the list, and reports [false] for every non-negative
    key that is not in the list. *)
Theorem GetEltIndex_roundtrip (a a' : Array32) (index : list Z) :
  Cnt a = 0 ->
  Forall is_key index ->
  strictly_ascending index = true ->
  InitIndexBitmap a index = (a', Return None) ->
  (forall (i : nat) (k : Z),
      index !! i = Some k -> GetEltIndex a' k = Return (Z.of_nat i, true)) /\
  (forall k : Z,
      is_key k -> k ∉ index -> exists p, GetEltIndex a' k = Return (p, false)).
Proof.
  intros Hc _ _ Hbuild.
  apply InitIndexBitmap_Return_nil in Hbuild as (Hinv & Hs & Hnn).
  rewrite Hc in Hinv. split.
  - intros i k Hi.
    pose proof (list_elem_of_lookup_2 _ _ _ Hi) as Hin.
    pose proof (Hnn k Hin) as Hk.
    destruct (key_word 0 index a' k Hinv Hk) as [[_ Hnin]|(w & _ & Hw & Hb)];
      [contradiction|].
    rewrite bool_decide_eq_true_2 in Hb by assumption.
    destruct (GetEltIndex_present 0 index a' k w Hinv Hk Hw Hb)
      as (base & _ & -> & ->).
    destruct (base_plus_count_rank index a' k w Hinv Hs Hk Hw) as (_ & -> & Hr).
    rewrite wrap_small by assumption.
    now rewrite (rank_lookup index i k Hs Hi).
  - intros k [Hk _] Hnin. exists 0.
    now apply (GetEltIndex_absent 0 index a' k).
Qed.

Lemma GetEltIndex_roundtrip_witness :
  (forall (i : nat) (k : Z),
      [1; 2; 64; 130] !! i = Some k ->
      GetEltIndex (InitIndexBitmap zero_Array32 [1; 2; 64; 130]).1 k
      = Return (Z.of_nat i, true)) /\
  (forall k : Z,
      is_key k -> k ∉ [1; 2; 64; 130] ->
      exists p, GetEltIndex (InitIndexBitmap zero_Array32 [1; 2; 64; 130]).1 k
                = Return (p, false)).
Proof.
  apply (GetEltIndex_roundtrip zero_Array32 _ [1; 2; 64; 130]).
  - reflexivity.
  - solve_keys.
  - reflexivity.
  - reflexivity.
Defined.

(** C5 (block base plus in-block rank). After a successful build on a
    structure whose counter was 0, for every key [k] whose bit is set in
    [Bitmaps], [GetEltIndex k] returns [Offsets[k / 64]] plus the number
    of set bits of [Bitmaps[k / 64]] below bit [k mod 64]; and
    [Offsets[k / 64]] is the value the counter had when the first key of
    that block was appended, which is the number of keys before it. *)
Theorem GetEltIndex_base_plus_rank (a a' : Array32) (index : list Z) (k w : Z) :
  Cnt a = 0 ->
  InitIndexBitmap a index = (a', Return None) ->
  is_key k ->
  slice_get (Bitmaps a') (k / 64) = Some w ->
  Z.testbit w (k mod 64) = true ->
  exists base,
    slice_get (Offsets a') (k / 64) = Some base /\
    GetEltIndex a' k
    = Return (base + bits.count_bits w (Z.to_nat (k mod 64)), true) /\
    (forall (pre post : list Z) (x : Z),
        index = pre ++ x :: post ->
        x / 64 = k / 64 ->
        (forall y, y ∈ pre -> y / 64 <> k / 64) ->
        base = running_count (Cnt a) (length pre) /\
        base = Z.of_nat (length pre)).
Proof.
  intros Hc Hbuild [Hk _] Hw Hbit.
  apply InitIndexBitmap_Return_nil in Hbuild as (Hinv & Hs & Hnn).
  rewrite Hc in *.
  destruct (GetEltIndex_present 0 index a' k w Hinv Hk Hw Hbit)
    as (base & Hbase & Hdef & Hget).
  destruct (base_plus_count_rank index a' k w Hinv Hs Hk Hw) as (Hb0 & Hsum & Hr).
  rewrite <- Hdef in Hb0, Hsum.
  exists base. split; [exact Hbase|]. split.
  - rewrite Hget, Hsum, wrap_small by assumption. reflexivity.
  - intros pre post x -> Hblock Hpre.
    pose proof (strictly_ascending_app _ _ Hs) as [Hs2 Hlt].
    apply strictly_ascending_cons in Hs2 as [_ Hgt].
    assert (Hx : 0 <= x) by (apply Hnn, elem_of_app; right; left).
    assert (Hrank : rank (pre ++ x :: post) (64 * (k / 64))
                    = Z.of_nat (length pre)).
    { rewrite rank_app, (rank_none_below (x :: post)), Z.add_0_r.
      - apply rank_all_below. intros y Hy.
        specialize (Hlt y x Hy ltac:(left)). specialize (Hpre y Hy).
        assert (0 <= y) by (apply Hnn, elem_of_app; now left).
        Z.to_euclidean_division_equations. lia.
      - intros y Hy. apply elem_of_cons in Hy as [->|Hy].
        + Z.to_euclidean_division_equations. lia.
        + specialize (Hgt y Hy). Z.to_euclidean_division_equations. lia. }
    assert (Hlen : Z.of_nat (length pre) < Int32.half).
    { pose proof (rank_bounds (pre ++ x :: post) (64 * (k / 64))).
      unfold Int32.in_range in Hr.
      pose proof (rank_bounds (pre ++ x :: post) k).
      pose proof (count_bits_bounds w (Z.to_nat (k mod 64))). lia. }
    rewrite running_count_0 by assumption. split; [|lia]. lia.
Qed.

Lemma GetEltIndex_base_plus_rank_witness :
  exists base,
    slice_get (Offsets (InitIndexBitmap zero_Array32 [1; 2; 64; 130]).1) (2 / 64)
    = Some base /\
    GetEltIndex (InitIndexBitmap zero_Array32 [1; 2; 64; 130]).1 2
    = Return (base + bits.count_bits 6 (Z.to_nat (2 mod 64)), true) /\
    (forall (pre post : list Z) (x : Z),
        [1; 2; 64; 130] = pre ++ x :: post ->
        x / 64 = 2 / 64 ->
        (forall y, y ∈ pre -> y / 64 <> 2 / 64) ->
        base = running_count (Cnt zero_Array32) (length pre) /\
        base = Z.of_nat (length pre)).
Proof.
  apply (GetEltIndex_base_plus_rank zero_Array32 _ [1; 2; 64; 130] 2 6).
  - reflexivity.
  - reflexivity.
  - unfold is_key, Int32.max_int. lia.
  - reflexivity.
  - reflexivity.
Defined.

(** X16. On a built structure [Has] and [GetEltIndex] return for every
    non-negative int32 key, and a key at or beyond the built capacity
    yields [false] and [(0, false)]. *)
Theorem queries_total_on_keys (a0 a : Array32) (index : list Z) (k : Z) :
  InitIndexBitmap a0 index = (a, Return None) ->
  is_key k ->
  (exists b, Has a k = Return b) /\
  (exists p f, GetEltIndex a k = Return (p, f)) /\
  (spec_capacity index <= k ->
   Has a k = Return false /\ GetEltIndex a k = Return (0, false)).
Proof.
  intros Hbuild Hkey. pose proof Hkey as [Hk _].
  apply InitIndexBitmap_Return_nil in Hbuild as (Hinv & Hs & Hnn).
  pose proof (Has_built _ _ _ k Hinv Hkey) as HHas.
  split; [eauto|]. split.
  - destruct (key_word _ index a k Hinv Hk) as [[_ Hnin]|(w & _ & Hw & Hb)].
    + exists 0, false. now apply (GetEltIndex_absent (Cnt a0) index).
    + destruct (decide (k ∈ index)) as [Hin|Hnin].
      * rewrite bool_decide_eq_true_2 in Hb by assumption.
        destruct (GetEltIndex_present _ index a k w Hinv Hk Hw Hb)
          as (base & _ & _ & ->). eauto.
      * exists 0, false. now apply (GetEltIndex_absent (Cnt a0) index).
  - intros Hcap.
    assert (Hnin : k ∉ index).
    { intros Hin. unfold spec_capacity in Hcap.
      destruct (last index) as [L|] eqn:EL.
      - pose proof (strictly_ascending_le_last _ _ _ Hs EL Hin). lia.
      - apply last_None in EL as ->. now apply elem_of_nil in Hin. }
    split.
    + now rewrite HHas, bool_decide_eq_false_2.
    + now apply (GetEltIndex_absent (Cnt a0) index).
Qed.

Lemma queries_total_on_keys_witness :
  (exists b, Has (InitIndexBitmap zero_Array32 [1; 2; 64; 130]).1 200 = Return b) /\
  (exists p f,
      GetEltIndex (InitIndexBitmap zero_Array32 [1; 2; 64; 130]).1 200
      = Return (p, f)) /\
  Has (InitIndexBitmap zero_Array32 [1; 2; 64; 130]).1 200 = Return false /\
  GetEltIndex (InitIndexBitmap zero_Array32 [1; 2; 64; 130]).1 200
  = Return (0, false).
Proof.
  destruct (queries_total_on_keys zero_Array32
              (InitIndexBitmap zero_Array32 [1; 2; 64; 130]).1
              [1; 2; 64; 130] 200) as (H1 & H2 & H3).
  - reflexivity.
  - unfold is_key, Int32.max_int. lia.
  - split; [exact H1|]. split; [exact H2|]. apply H3. vm_compute. discriminate.
Defined.

(** C2 (totality of the queries). The queries are not total on the
    int32 keys: on the structure built from [63], [GetEltIndex (-1)]
    takes the word index -1 >> 6 = -1, passes the guard
    [iBm >= len(Bitmaps)] and panics on [Bitmaps[-1]], where its comment
    promises [(0, false)] for a key that is not present; [Has (-64)]
    takes the word index -64 / 64 = -1 and panics likewise. *)
Lemma queries_panic_on_negative_keys :
  InitIndexBitmap zero_Array32 [63]
  = ({| Cnt := 1; Bitmaps := [9223372036854775808]; Offsets := [0];
        Elts := [] |}, Return None) /\
  Int32.in_range (-1) /\ Int32.in_range (-64) /\
  GetEltIndex (InitIndexBitmap zero_Array32 [63]).1 (-1)
  = Panics IndexOutOfRange /\
  Has (InitIndexBitmap zero_Array32 [63]).1 (-64) = Panics IndexOutOfRange /\
  ~ (exists r, GetEltIndex (InitIndexBitmap zero_Array32 [63]).1 (-1) = Return r) /\
  ~ (exists b, Has (InitIndexBitmap zero_Array32 [63]).1 (-64) = Return b).
Proof.
  split; [reflexivity|].
  split; [unfold Int32.in_range, Int32.half; lia|].
  split; [unfold Int32.in_range, Int32.half; lia|].
  split; [reflexivity|]. split; [reflexivity|].
  split; intros [r Hr]; vm_compute in Hr; discriminate Hr.
Qed.

(** X17. On a built structure and for every non-negative int32 key,
    [Has] returns the boolean component of what [GetEltIndex] returns. *)
Theorem Has_agrees_with_GetEltIndex (a0 a : Array32) (index : list Z) (k : Z) :
  InitIndexBitmap a0 index = (a, Return None) ->
  is_key k ->
  exists p b, GetEltIndex a k = Return (p, b) /\ Has a k = Return b.
Proof.
  intros Hbuild Hkey. pose proof Hkey as [Hk _].
  apply InitIndexBitmap_Return_nil in Hbuild as (Hinv & Hs & Hnn).
  rewrite (Has_built _ _ _ k Hinv Hkey).
  destruct (decide (k ∈ index)) as [Hin|Hnin].
  - rewrite bool_decide_eq_true_2 by assumption.
    destruct (key_word _ index a k Hinv Hk) as [[_ Hnin]|(w & _ & Hw & Hb)];
      [contradiction|].
    rewrite bool_decide_eq_true_2 in Hb by assumption.
    destruct (GetEltIndex_present _ index a k w Hinv Hk Hw Hb)
      as (base & _ & _ & ->). eauto.
  - rewrite bool_decide_eq_false_2 by assumption.
    exists 0, false. split; [|reflexivity].
    now apply (GetEltIndex_absent (Cnt a0) index).
Qed.

Lemma Has_agrees_with_GetEltIndex_witness :
  exists p b,
    GetEltIndex (InitIndexBitmap zero_Array32 [1; 2; 64; 130]).1 64
    = Return (p, b) /\
    Has (InitIndexBitmap zero_Array32 [1; 2; 64; 130]).1 64 = Return b.
Proof.
  apply (Has_agrees_with_GetEltIndex zero_Array32 _ [1; 2; 64; 130] 64).
  - reflexivity.
  - unfold is_key, Int32.max_int. lia.
Defined.

(** C3 (consistency). [Has] and [GetEltIndex] do not agree on the int32
    keys: on the structure built from [63], [Has (-1)] divides, reads
    bit 63 of word 0 and returns [true] for a key that is not in the
    array, while [GetEltIndex (-1)] shifts, gets the word index -1 and
    panics.  The comment of [bmBit] takes the shift for the division. *)
Lemma Has_disagrees_with_GetEltIndex_on_minus_1 :
  (InitIndexBitmap zero_Array32 [63]).2 = Return None /\
  Int32.in_range (-1) /\
  Has (InitIndexBitmap zero_Array32 [63]).1 (-1) = Return true /\
  GetEltIndex (InitIndexBitmap zero_Array32 [63]).1 (-1)
  = Panics IndexOutOfRange /\
  ~ (exists p b,
        GetEltIndex (InitIndexBitmap zero_Array32 [63]).1 (-1) = Return (p, b) /\
        Has (InitIndexBitmap zero_Array32 [63]).1 (-1) = Return b).
Proof.
  split; [reflexivity|].
  split; [unfold Int32.in_range, Int32.half; lia|].
  split; [reflexivity|]. split; [reflexivity|].
  intros (p & b & Hg & _). vm_compute in Hg. discriminate Hg.
Qed.

(** C4 (rejection). [5, 3] and [5, 5] are rejected with
    [ErrIndexNotAscending]; the descending list [100, 3] is not: its
    first key lies beyond the capacity taken from its last key, and
    [appendIndex] panics before the ascent check reaches the key 3. *)
Theorem InitIndexBitmap_rejection :
  (InitIndexBitmap zero_Array32 [5; 3]).2 = Return (Some ErrIndexNotAscending) /\
  (InitIndexBitmap zero_Array32 [5; 5]).2 = Return (Some ErrIndexNotAscending) /\
  Forall is_key [100; 3] /\
  strictly_ascending [100; 3] = false /\
  InitIndexBitmap zero_Array32 [100; 3]
  = ({| Cnt := 0; Bitmaps := [0]; Offsets := [0]; Elts := [] |},
     Panics IndexOutOfRange).
Proof.
  split; [reflexivity|]. split; [reflexivity|].
  split; [solve_keys|]. split; reflexivity.
Qed.

(** C6 (lengths), as the code has it: when the input is empty, or its
    last element [L] satisfies [-64 <= L <= 2^31 - 65], then after
    [InitIndexBitmap], however the call ends, [Bitmaps] and [Offsets] have
    the same length, ceil((L + 1) / 64), and both are empty when the input
    is. *)
Theorem lengths_after_InitIndexBitmap (a : Array32) (index : list Z) :
  (forall L, last index = Some L -> -64 <= L <= 2147483583) ->
  length (Bitmaps (InitIndexBitmap a index).1)
  = length (Offsets (InitIndexBitmap a index).1) /\
  Z.of_nat (length (Bitmaps (InitIndexBitmap a index).1))
  = ceil_div64 (spec_capacity index) /\
  Bitmaps (InitIndexBitmap a []).1 = [] /\
  Offsets (InitIndexBitmap a []).1 = [].
Proof.
  intros HL.
  assert (Hcnt : bmCnt_of index = ceil_div64 (spec_capacity index)
                 /\ 0 <= bmCnt_of index).
  { unfold spec_capacity. destruct (last index) as [L|] eqn:EL.
    - specialize (HL L eq_refl). rewrite (bmCnt_of_exact index L EL HL).
      split; [reflexivity|]. unfold ceil_div64. apply Z.div_pos; lia.
    - unfold bmCnt_of, capacity_of. rewrite EL. now vm_compute. }
  destruct Hcnt as [Hcnt Hnn].
  split; [|split; [|split; reflexivity]].
  - unfold InitIndexBitmap. destruct (Z.ltb_spec (bmCnt_of index) 0); [lia|].
    match goal with
    | |- context [InitIndexBitmap_loop ?s ?n ?l] =>
        destruct (InitIndexBitmap_loop_lengths l s n) as [-> ->]
    end.
    cbn [Bitmaps Offsets]. now rewrite !length_replicate.
  - unfold InitIndexBitmap. destruct (Z.ltb_spec (bmCnt_of index) 0); [lia|].
    match goal with
    | |- context [InitIndexBitmap_loop ?s ?n ?l] =>
        destruct (InitIndexBitmap_loop_lengths l s n) as [-> _]
    end.
    cbn [Bitmaps]. rewrite length_replicate, Z2Nat.id by lia. exact Hcnt.
Qed.

Lemma lengths_after_InitIndexBitmap_witness :
  length (Bitmaps (InitIndexBitmap zero_Array32 [1; 2; 64; 130]).1)
  = length (Offsets (InitIndexBitmap zero_Array32 [1; 2; 64; 130]).1) /\
  Z.of_nat (length (Bitmaps (InitIndexBitmap zero_Array32 [1; 2; 64; 130]).1))
  = ceil_div64 (spec_capacity [1; 2; 64; 130]) /\
  Bitmaps (InitIndexBitmap zero_Array32 []).1 = [] /\
  Offsets (InitIndexBitmap zero_Array32 []).1 = [].
Proof.
  apply (lengths_after_InitIndexBitmap zero_Array32 [1; 2; 64; 130]).
  intros L HL. vm_compute in HL. injection HL as <-. lia.
Defined.

(** With the last key 2^31 - 1 the capacity wraps around to -2^31, the
    allocation panics and nothing is allocated; with the last element -65
    the formula asks for a negative length. *)
Lemma lengths_after_InitIndexBitmap_counterexample :
  is_key 2147483647 /\
  InitIndexBitmap zero_Array32 [2147483647]
  = (zero_Array32, Panics MakeSliceLenOutOfRange) /\
  Z.of_nat (length (Bitmaps (InitIndexBitmap zero_Array32 [2147483647]).1))
  <> ceil_div64 (spec_capacity [2147483647]) /\
  InitIndexBitmap zero_Array32 [-65]
  = (zero_Array32, Return (Some ErrIndexNotAscending)) /\
  Z.of_nat (length (Bitmaps (InitIndexBitmap zero_Array32 [-65]).1))
  <> ceil_div64 (spec_capacity [-65]).
Proof.
  split; [unfold is_key, Int32.max_int; lia|].
  split; [reflexivity|]. split; [vm_compute; discriminate|].
  split; [reflexivity|]. vm_compute. discriminate.
Qed.

(** C7 (count), as the code has it: when [InitIndexBitmap] returns nil on
    a structure whose counter was 0 on entry, [Cnt] is the length of the
    input list. *)
Theorem Cnt_after_InitIndexBitmap (a a' : Array32) (index : list Z) :
  Cnt a = 0 ->
  InitIndexBitmap a index = (a', Return None) ->
  Cnt a' = Z.of_nat (length index).
Proof.
  intros Hc Hbuild.
  apply InitIndexBitmap_Return_nil in Hbuild as (Hinv & Hs & Hnn).
  rewrite (inv_cnt _ _ _ Hinv), Hc. apply running_count_0.
  pose proof (inv_cap _ _ _ Hinv).
  pose proof (ascending_length_le index (64 * Z.of_nat (length (Bitmaps a')))
                Hs ltac:(lia) (inv_keys _ _ _ Hinv)).
  lia.
Qed.

Lemma Cnt_after_InitIndexBitmap_witness :
  Cnt (InitIndexBitmap zero_Array32 [1; 2; 64; 130]).1
  = Z.of_nat (length [1; 2; 64; 130]).
Proof.
  apply (Cnt_after_InitIndexBitmap zero_Array32 _ [1; 2; 64; 130]);
    reflexivity.
Defined.

(** [InitIndexBitmap] does not reset the counter: it counts on from the
    value the receiver holds. *)
Lemma Cnt_after_InitIndexBitmap_counterexample :
  InitIndexBitmap {| Cnt := 5; Bitmaps := []; Offsets := []; Elts := [] |} [1]
  = ({| Cnt := 6; Bitmaps := [2]; Offsets := [5]; Elts := [] |}, Return None) /\
  Cnt (InitIndexBitmap
         {| Cnt := 5; Bitmaps := []; Offsets := []; Elts := [] |} [1]).1
  <> Z.of_nat (length [1]).
Proof. split; [reflexivity|]. vm_compute. discriminate. Qed.

(** C8 (concrete scenario). Building from [1, 2, 64, 130] on a structure
    whose counter is 0 returns nil with count 4; then the keys 1, 2, 64
    and 130 are found at positions 0, 1, 2 and 3, the key 3 is not found,
    and [Has 63] is false. *)
Theorem scenario_1_2_64_130 (bm off elts : list Z) :
  InitIndexBitmap (mkArray32 0 bm off elts) [1; 2; 64; 130]
  = ({| Cnt := 4; Bitmaps := [6; 1; 4]; Offsets := [0; 2; 3]; Elts := elts |},
     Return None) /\
  GetEltIndex (InitIndexBitmap (mkArray32 0 bm off elts) [1; 2; 64; 130]).1 1
  = Return (0, true) /\
  GetEltIndex (InitIndexBitmap (mkArray32 0 bm off elts) [1; 2; 64; 130]).1 2
  = Return (1, true) /\
  (exists p,
      GetEltIndex (InitIndexBitmap (mkArray32 0 bm off elts) [1; 2; 64; 130]).1 3
      = Return (p, false)) /\
  GetEltIndex (InitIndexBitmap (mkArray32 0 bm off elts) [1; 2; 64; 130]).1 64
  = Return (2, true) /\
  GetEltIndex (InitIndexBitmap (mkArray32 0 bm off elts) [1; 2; 64; 130]).1 130
  = Return (3, true) /\
  Has (InitIndexBitmap (mkArray32 0 bm off elts) [1; 2; 64; 130]).1 63
  = Return false.
Proof.
  repeat split; try reflexivity. exists 0. reflexivity.
Qed.

(** C9 (one split, two spellings). For every non-negative int32 key the
    block and bit indices [Has] obtains by division and mask are the ones
    [bmBit] obtains by shift and mask. *)
Theorem hasBit_eq_bmBit (k : Z) : is_key k -> hasBit k = bmBit k.
Proof.
  intros [Hk Hmax]. unfold Int32.max_int in Hmax.
  rewrite bmBit_div_mod, hasBit_div_mod; [reflexivity|unfold_int; lia].
Qed.

Lemma hasBit_eq_bmBit_witness : hasBit 130 = bmBit 130.
Proof. apply (hasBit_eq_bmBit 130). unfold is_key, Int32.max_int. lia. Defined.

(** C10 (the writes of appendIndex). When no element of the input
    exceeds its last element, and in particular when the input is
    strictly ascending, [InitIndexBitmap] never ends in an index panic:
    the accesses [Bitmaps[iBm]] and [Offsets[iBm]] of [appendIndex] are in
    bounds.  The ascent check by itself does not ensure that: it looks at
    the previous key only, and [100, 3] passes it with the key 100 while
    the capacity is 4. *)
Theorem appendIndex_writes_in_bounds (a : Array32) (index : list Z) :
  Forall Int32.in_range index ->
  ((forall L x, last index = Some L -> x ∈ index -> x <= L) ->
   (InitIndexBitmap a index).2 <> Panics IndexOutOfRange) /\
  (strictly_ascending index = true ->
   (InitIndexBitmap a index).2 <> Panics IndexOutOfRange) /\
  (InitIndexBitmap a [100; 3]).2 = Panics IndexOutOfRange.
Proof.
  intros Hrange.
  assert (Hmain : (forall L x, last index = Some L -> x ∈ index -> x <= L) ->
                  (InitIndexBitmap a index).2 <> Panics IndexOutOfRange).
  { intros Hle. unfold InitIndexBitmap.
    pose proof (bmCnt_of_upper index) as Hup.
    destruct (Z.ltb_spec (bmCnt_of index) 0) as [|Hnn]; [discriminate|].
    apply InitIndexBitmap_loop_in_bounds; cbn [Bitmaps Offsets];
      rewrite ?length_replicate, ?Z2Nat.id by lia; auto; try lia.
    intros x Hx. destruct (last index) as [L|] eqn:EL.
    - specialize (Hle L x eq_refl Hx).
      rewrite Forall_forall in Hrange.
      pose proof (Hrange L (last_Some_elem_of _ _ EL)) as HLr.
      pose proof (last_below_bmCnt index L EL HLr Hnn). lia.
    - apply last_None in EL. subst index. now apply elem_of_nil in Hx. }
  split; [exact Hmain|]. split; [|reflexivity].
  intros Hs. apply Hmain. intros L x HL Hx.
  now apply (strictly_ascending_le_last index).
Qed.

Lemma appendIndex_writes_in_bounds_witness :
  (InitIndexBitmap zero_Array32 [3; 1; 130]).2 <> Panics IndexOutOfRange /\
  (InitIndexBitmap zero_Array32 [1; 2; 64; 130]).2 <> Panics IndexOutOfRange.
Proof.
  split.
  - destruct (appendIndex_writes_in_bounds zero_Array32 [3; 1; 130])
      as (Hle & _ & _); [solve_keys|].
    apply Hle. intros L x HL Hx. vm_compute in HL. injection HL as <-.
    rewrite !elem_of_cons in Hx.
    destruct Hx as [->|[->|[->|Hx]]]; [lia | lia | lia |].
    now apply elem_of_nil in Hx.
  - destruct (appendIndex_writes_in_bounds zero_Array32 [1; 2; 64; 130])
      as (_ & Hasc & _); [solve_keys|].
    apply Hasc. reflexivity.
Defined.

(** * Further properties of the construction and of the queries *)

(** ** Positions on a structure that satisfies the invariant *)

Lemma wrap_wrap_add (x y : Z) :
  Int32.wrap (Int32.wrap x + y) = Int32.wrap (x + y).
Proof.
  unfold Int32.wrap. f_equal.
  replace ((x + Int32.half) mod Int32.modulus - Int32.half + y + Int32.half)
    with ((x + Int32.half) mod Int32.modulus + y) by lia.
  replace (x + y + Int32.half) with ((x + Int32.half) + y) by lia.
  now rewrite Zplus_mod_idemp_l.
Qed.

Lemma running_count_wrap (c0 : Z) (n : nat) :
  Int32.in_range c0 -> running_count c0 n = Int32.wrap (c0 + Z.of_nat n).
Proof.
  intros Hc. induction n as [|n IH]; cbn [running_count].
  - rewrite Z.add_0_r. symmetry. now apply wrap_small.
  - rewrite IH, wrap_wrap_add. f_equal. lia.
Qed.

(** The rank of a key splits at the start of its block. *)
Lemma rank_split (c0 : Z) (l : list Z) (a : Array32) (k w : Z) :
  built_inv c0 l a ->
  NoDup l ->
  0 <= k ->
  slice_get (Bitmaps a) (k / 64) = Some w ->
  rank l k
  = rank l (64 * (k / 64)) + bits.count_bits w (Z.to_nat (k mod 64)).
Proof.
  intros Hinv Hnd Hk Hw.
  assert (Hmod : 0 <= k mod 64 < 64) by (apply Z.mod_pos_bound; lia).
  assert (Hdm : k = 64 * (k / 64) + k mod 64) by (apply Z.div_mod; lia).
  apply slice_get_Some in Hw as [Hq Hw].
  assert (Hrb : rank l (64 * (k / 64) + Z.of_nat (Z.to_nat (k mod 64)))
                = rank l (64 * (k / 64))
                  + bits.count_bits w (Z.to_nat (k mod 64))).
  { apply rank_bits; [assumption| |lia].
    intros j Hj. pose proof (inv_bits _ _ _ Hinv _ w j Hw Hj) as Hb.
    now rewrite Z2Nat.id in Hb by assumption. }
  now rewrite Z2Nat.id, <- Hdm in Hrb by lia.
Qed.

Lemma built_length_bound (c0 : Z) (l : list Z) (a : Array32) :
  built_inv c0 l a ->
  strictly_ascending l = true ->
  Z.of_nat (length l) <= 64 * Z.of_nat (length (Bitmaps a)) < Int32.half.
Proof.
  intros Hinv Hs. pose proof (inv_cap _ _ _ Hinv).
  pose proof (ascending_length_le l (64 * Z.of_nat (length (Bitmaps a))) Hs
                ltac:(lia) (inv_keys _ _ _ Hinv)).
  lia.
Qed.

(** What [GetEltIndex] returns for the key at position [i], whatever the
    counter was when the build started. *)
Lemma GetEltIndex_built_position (c0 : Z) (l : list Z) (a : Array32)
    (i : nat) (k : Z) :
  built_inv c0 l a ->
  Int32.in_range c0 ->
  strictly_ascending l = true ->
  l !! i = Some k ->
  GetEltIndex a k = Return (Int32.wrap (c0 + Z.of_nat i), true).
Proof.
  intros Hinv Hc Hs Hi.
  pose proof (list_elem_of_lookup_2 _ _ _ Hi) as Hin.
  pose proof (inv_keys _ _ _ Hinv k Hin) as [Hk _].
  destruct (key_word c0 l a k Hinv Hk) as [[_ Hnin]|(w & _ & Hw & Hb)];
    [contradiction|].
  rewrite bool_decide_eq_true_2 in Hb by assumption.
  destruct (GetEltIndex_present c0 l a k w Hinv Hk Hw Hb)
    as (base & _ & -> & ->).
  pose proof (rank_split c0 l a k w Hinv (strictly_ascending_NoDup _ Hs) Hk Hw)
    as Hsplit.
  rewrite (rank_lookup l i k Hs Hi) in Hsplit.
  pose proof (rank_bounds l (64 * (k / 64))).
  rewrite running_count_wrap, wrap_wrap_add, Z2Nat.id by (assumption || lia).
  match goal with
  | |- Return (Int32.wrap ?x, true) = _ =>
      replace x with (c0 + Z.of_nat i) by lia
  end.
  reflexivity.
Qed.

Lemma strictly_ascending_snoc (l : list Z) (x : Z) :
  strictly_ascending l = true ->
  (forall y, y ∈ l -> y < x) ->
  strictly_ascending (l ++ [x]) = true.
Proof.
  induction l as [|z l IH]; intros Hs Hall; [reflexivity|].
  apply strictly_ascending_cons in Hs as [Hs Hgt].
  change ((z :: l) ++ [x]) with (z :: (l ++ [x])).
  apply strictly_ascending_cons. split.
  - apply IH; [assumption|]. intros y Hy. apply Hall. now right.
  - intros y Hy. apply elem_of_app in Hy as [Hy|Hy]; [auto|].
    apply list_elem_of_singleton in Hy as ->. apply Hall. left.
Qed.

(** ** How [InitIndexBitmap] ends *)

Lemma appendIndex_Panics (a a' : Array32) (x : Z) (p : panic) :
  appendIndex a x = (a', Panics p) ->
  a' = a /\ p = IndexOutOfRange /\
  (x / 64 < 0 \/ Z.of_nat (length (Bitmaps a)) <= x / 64 \/
   Z.of_nat (length (Offsets a)) <= x / 64).
Proof.
  unfold appendIndex. rewrite bmBit_div_mod.
  destruct (slice_get (Bitmaps a) (x / 64)) as [w|] eqn:Eb.
  - destruct (w =? 0); [|discriminate].
    destruct (slice_get (Offsets a) (x / 64)) as [o|] eqn:Eo; [discriminate|].
    intros [= <- <-]. apply slice_get_None in Eo. intuition lia.
  - intros [= <- <-]. apply slice_get_None in Eb. intuition lia.
Qed.

Lemma InitIndexBitmap_loop_no_make_panic (index : list Z) (a : Array32)
    (nxt : Z) :
  (InitIndexBitmap_loop a nxt index).2 <> Panics MakeSliceLenOutOfRange.
Proof.
  revert a nxt. induction index as [|x rest IH]; intros a nxt;
    cbn [InitIndexBitmap_loop]; [discriminate|].
  destruct (x <? nxt); [discriminate|].
  destruct (appendIndex a x) as [a1 [[]|p]] eqn:Happ; [apply IH|].
  apply appendIndex_Panics in Happ as (_ & -> & _). discriminate.
Qed.

Lemma InitIndexBitmap_no_index_panic (a : Array32) (index : list Z) :
  (forall L, last index = Some L -> Int32.in_range L) ->
  (forall L x, last index = Some L -> x ∈ index -> x <= L) ->
  (InitIndexBitmap a index).2 <> Panics IndexOutOfRange.
Proof.
  intros Hrange Hle. unfold InitIndexBitmap.
  pose proof (bmCnt_of_upper index) as Hup.
  destruct (Z.ltb_spec (bmCnt_of index) 0) as [|Hnn]; [discriminate|].
  apply InitIndexBitmap_loop_in_bounds; cbn [Bitmaps Offsets];
    rewrite ?length_replicate, ?Z2Nat.id by lia; auto; try lia.
  intros x Hx. destruct (last index) as [L|] eqn:EL.
  - specialize (Hle L x eq_refl Hx).
    pose proof (last_below_bmCnt index L EL (Hrange L eq_refl) Hnn). lia.
  - apply last_None in EL. subst index. now apply elem_of_nil in Hx.
Qed.

(** X1. [InitIndexBitmap] returns nil exactly on the strictly ascending
    lists of keys between 0 and 2^31 - 65, whatever the receiver holds. *)
Theorem InitIndexBitmap_nil_iff (a : Array32) (index : list Z) :
  (exists a', InitIndexBitmap a index = (a', Return None)) <->
  strictly_ascending index = true /\
  (forall x, x ∈ index -> 0 <= x <= 2147483583).
Proof.
  split.
  - intros [a' Hbuild].
    apply InitIndexBitmap_Return_nil in Hbuild as (Hinv & Hs & Hnn).
    split; [assumption|]. intros x Hx.
    pose proof (inv_keys _ _ _ Hinv x Hx). pose proof (inv_cap _ _ _ Hinv).
    unfold Int32.half in *. lia.
  - intros [Hs Hall]. now apply InitIndexBitmap_succeeds.
Qed.

(** X2. With a last element [L] the allocation panics exactly when
    [L <= -128] or [L >= 2^31 - 64], and it panics before the receiver is
    written. *)
Theorem InitIndexBitmap_make_panics_iff (a : Array32) (index : list Z) (L : Z) :
  last index = Some L ->
  Int32.in_range L ->
  ((InitIndexBitmap a index).2 = Panics MakeSliceLenOutOfRange <->
   L <= -128 \/ 2147483584 <= L) /\
  ((InitIndexBitmap a index).2 = Panics MakeSliceLenOutOfRange ->
   (InitIndexBitmap a index).1 = a).
Proof.
  intros HL Hr.
  assert (Hneg : bmCnt_of index < 0 <-> L <= -128 \/ 2147483584 <= L).
  { unfold bmCnt_of, capacity_of. rewrite HL. clear HL. int_lia. }
  unfold InitIndexBitmap.
  destruct (Z.ltb_spec (bmCnt_of index) 0) as [Hlt|Hge]; cbn [fst snd].
  - split; [|reflexivity]. split; [intros _; now apply Hneg | reflexivity].
  - split.
    + split.
      * intros Hp. now apply InitIndexBitmap_loop_no_make_panic in Hp.
      * intros HLr. apply Hneg in HLr. lia.
    + intros Hp. now apply InitIndexBitmap_loop_no_make_panic in Hp.
Qed.

Lemma InitIndexBitmap_make_panics_iff_witness :
  ((InitIndexBitmap zero_Array32 [7; 2147483600]).2
   = Panics MakeSliceLenOutOfRange <->
   2147483600 <= -128 \/ 2147483584 <= 2147483600) /\
  ((InitIndexBitmap zero_Array32 [7; 2147483600]).2
   = Panics MakeSliceLenOutOfRange ->
   (InitIndexBitmap zero_Array32 [7; 2147483600]).1 = zero_Array32).
Proof.
  apply (InitIndexBitmap_make_panics_iff zero_Array32 [7; 2147483600]).
  - reflexivity.
  - unfold Int32.in_range, Int32.half. lia.
Defined.

(** X3. On a list of non-negative keys none of which exceeds the last
    one, with the last one at most 2^31 - 65, [InitIndexBitmap] always
    returns: nil when the list is strictly ascending,
    [ErrIndexNotAscending] when it is not. *)
Theorem InitIndexBitmap_returns_within_capacity (a : Array32) (index : list Z) :
  Forall is_key index ->
  (forall L x, last index = Some L -> x ∈ index -> x <= L) ->
  (forall L, last index = Some L -> L <= 2147483583) ->
  (InitIndexBitmap a index).2
  = Return (if strictly_ascending index then None
            else Some ErrIndexNotAscending).
Proof.
  intros Hkeys Hle Hcap. rewrite Forall_forall in Hkeys.
  assert (HLkey : forall L, last index = Some L -> is_key L).
  { intros L HL. apply Hkeys. now apply last_Some_elem_of. }
  destruct (InitIndexBitmap a index) as [a' e] eqn:Hrun. cbn [snd].
  destruct e as [[[]|]|[|]].
  - apply InitIndexBitmap_error_not_ascending in Hrun as ->;
      [reflexivity | now apply Forall_forall].
  - apply InitIndexBitmap_Return_nil in Hrun as (_ & -> & _). reflexivity.
  - exfalso. revert Hrun. unfold InitIndexBitmap.
    destruct (Z.ltb_spec (bmCnt_of index) 0) as [Hlt|Hge].
    + destruct (last index) as [L|] eqn:EL.
      * destruct (HLkey L eq_refl) as [HL0 _]. specialize (Hcap L eq_refl).
        rewrite (bmCnt_of_exact index L EL) in Hlt by lia.
        unfold ceil_div64 in Hlt. Z.to_euclidean_division_equations. lia.
      * unfold bmCnt_of, capacity_of in Hlt. rewrite EL in Hlt.
        vm_compute in Hlt. discriminate.
    + intros Hp.
      match type of Hp with
      | InitIndexBitmap_loop ?s ?n ?l = _ =>
          pose proof (InitIndexBitmap_loop_no_make_panic l s n) as Hno
      end.
      rewrite Hp in Hno. now apply Hno.
  - exfalso.
    apply (InitIndexBitmap_no_index_panic a index).
    + intros L HL. destruct (HLkey L HL). unfold_int. lia.
    + exact Hle.
    + now rewrite Hrun.
Qed.

Lemma InitIndexBitmap_returns_within_capacity_witness :
  (InitIndexBitmap zero_Array32 [3; 1; 130]).2
  = Return (if strictly_ascending [3; 1; 130] then None
            else Some ErrIndexNotAscending).
Proof.
  apply (InitIndexBitmap_returns_within_capacity zero_Array32 [3; 1; 130]).
  - solve_keys.
  - intros L x HL Hx. vm_compute in HL. injection HL as <-.
    rewrite !elem_of_cons in Hx.
    destruct Hx as [->|[->|[->|Hx]]]; [lia | lia | lia |].
    now apply elem_of_nil in Hx.
  - intros L HL. vm_compute in HL. injection HL as <-. lia.
Defined.

Lemma next_after_cons (nxt x : Z) (pre : list Z) :
  next_after nxt (x :: pre) = next_after (x + 1) pre.
Proof.
  unfold next_after. destruct pre as [|y pre]; [reflexivity|].
  rewrite last_cons_cons.
  destruct (last (y :: pre)) eqn:E; [reflexivity|].
  apply last_None in E. discriminate E.
Qed.

(** When the loop does not run to the end, it stopped at the first
    element that fails the ascent check or falls outside the slices, and
    the structure holds the elements before it. *)
Lemma InitIndexBitmap_loop_stops (c0 : Z) (rest pre0 : list Z)
    (a a' : Array32) (nxt : Z) (e : exit (option error)) :
  built_inv c0 pre0 a ->
  0 <= nxt ->
  (forall y, y ∈ pre0 -> y < nxt) ->
  InitIndexBitmap_loop a nxt rest = (a', e) ->
  e <> Return None ->
  exists pre x post,
    rest = pre ++ x :: post /\
    built_inv c0 (pre0 ++ pre) a' /\
    strictly_ascending pre = true /\
    (forall y, y ∈ pre -> nxt <= y) /\
    ((e = Return (Some ErrIndexNotAscending) /\ x < next_after nxt pre) \/
     (e = Panics IndexOutOfRange /\ next_after nxt pre <= x /\
      64 * Z.of_nat (length (Bitmaps a')) <= x)).
Proof.
  revert pre0 a nxt.
  induction rest as [|x rest IH]; intros pre0 a nxt Hinv Hn Hpre;
    cbn [InitIndexBitmap_loop].
  - intros [= <- <-] He. now contradiction He.
  - destruct (Z.ltb_spec x nxt) as [Hlt|Hge].
    + intros [= <- <-] _. exists [], x, rest. rewrite app_nil_r.
      split; [reflexivity|]. split; [assumption|]. split; [reflexivity|].
      split; [intros y Hy; now apply elem_of_nil in Hy|]. left. auto.
    + destruct (appendIndex a x) as [a1 [[]|p]] eqn:Happ.
      * intros Hloop He.
        assert (Hinv1 : built_inv c0 (pre0 ++ [x]) a1).
        { apply (appendIndex_inv c0 pre0 a a1 x); auto; try lia.
          intros y Hy. specialize (Hpre y Hy). lia. }
        assert (Hxr : 0 <= x < Int32.half - 1).
        { pose proof (inv_keys _ _ _ Hinv1 x) as Hk.
          pose proof (inv_cap _ _ _ Hinv1).
          specialize (Hk ltac:(apply elem_of_app; right; left)). lia. }
        rewrite wrap_small in Hloop by (unfold_int; lia).
        destruct (IH (pre0 ++ [x]) a1 (x + 1) Hinv1 ltac:(lia)) with (2 := Hloop)
          as (pre & x' & post & -> & Hinv' & Hs' & Hall' & Hcase);
          [|assumption|].
        { intros y Hy. apply elem_of_app in Hy as [Hy|Hy].
          - specialize (Hpre y Hy). lia.
          - apply list_elem_of_singleton in Hy. lia. }
        exists (x :: pre), x', post. rewrite <- app_assoc in Hinv'.
        split; [reflexivity|]. split; [exact Hinv'|]. split.
        { apply strictly_ascending_cons. split; [assumption|].
          intros y Hy. specialize (Hall' y Hy). lia. }
        split.
        { intros y Hy. apply elem_of_cons in Hy as [->|Hy]; [lia|].
          specialize (Hall' y Hy). lia. }
        now rewrite next_after_cons.
      * intros [= <- <-] _.
        apply appendIndex_Panics in Happ as (-> & -> & Hout).
        exists [], x, rest. rewrite app_nil_r.
        split; [reflexivity|]. split; [assumption|]. split; [reflexivity|].
        split; [intros y Hy; now apply elem_of_nil in Hy|]. right.
        split; [reflexivity|]. split; [exact Hge|].
        rewrite (inv_len _ _ _ Hinv) in Hout.
        Z.to_euclidean_division_equations. lia.
Qed.

Lemma InitIndexBitmap_stops (a a' : Array32) (index : list Z)
    (e : exit (option error)) :
  InitIndexBitmap a index = (a', e) ->
  e <> Return None ->
  e <> Panics MakeSliceLenOutOfRange ->
  exists pre x post,
    index = pre ++ x :: post /\
    built_inv (Cnt a) pre a' /\
    strictly_ascending pre = true /\
    (forall y, y ∈ pre -> 0 <= y) /\
    ((e = Return (Some ErrIndexNotAscending) /\ x < next_after 0 pre) \/
     (e = Panics IndexOutOfRange /\ next_after 0 pre <= x /\
      64 * bmCnt_of index <= x)).
Proof.
  unfold InitIndexBitmap. pose proof (bmCnt_of_upper index) as Hup.
  destruct (Z.ltb_spec (bmCnt_of index) 0) as [|Hnn].
  - intros [= <- <-] _ He. now contradiction He.
  - intros Hloop He _.
    match type of Hloop with
    | InitIndexBitmap_loop ?s ?n ?l = _ =>
        pose proof (InitIndexBitmap_loop_lengths l s n) as [Hb _]
    end.
    rewrite Hloop in Hb. cbn [fst Bitmaps] in Hb.
    rewrite length_replicate in Hb.
    apply (InitIndexBitmap_loop_stops (Cnt a) index []) in Hloop
      as (pre & x & post & Hsplit & Hinv & Hs & Hall & Hcase); auto; try lia.
    + exists pre, x, post. rewrite Hb, Z2Nat.id in Hcase by lia. auto.
    + apply built_inv_alloc. lia.
    + intros y Hy. now apply elem_of_nil in Hy.
Qed.

(** X4. When [InitIndexBitmap] returns [ErrIndexNotAscending], it stopped
    at the first element [x] that is not above its predecessor (or is
    negative, when it comes first); the elements before it are strictly
    ascending and non-negative, and the structure left behind holds
    exactly them: [Cnt] counted them and [Has] answers for them. *)
Theorem InitIndexBitmap_error_partial_build (a a' : Array32) (index : list Z) :
  InitIndexBitmap a index = (a', Return (Some ErrIndexNotAscending)) ->
  exists pre x post,
    index = pre ++ x :: post /\
    strictly_ascending pre = true /\
    (forall y, y ∈ pre -> 0 <= y) /\
    x < next_after 0 pre /\
    Cnt a' = running_count (Cnt a) (length pre) /\
    (forall k, is_key k -> Has a' k = Return (bool_decide (k ∈ pre))).
Proof.
  intros Hrun.
  apply InitIndexBitmap_stops in Hrun
    as (pre & x & post & Hsplit & Hinv & Hs & Hall & [[_ Hx]|[He _]]);
    try discriminate.
  exists pre, x, post. repeat split; auto.
  - apply (inv_cnt _ _ _ Hinv).
  - intros k Hk. now apply (Has_built (Cnt a) pre).
Qed.

Lemma InitIndexBitmap_error_partial_build_witness :
  exists pre x post,
    [1; 2; 64; 3; 130] = pre ++ x :: post /\
    strictly_ascending pre = true /\
    (forall y, y ∈ pre -> 0 <= y) /\
    x < next_after 0 pre /\
    Cnt (InitIndexBitmap zero_Array32 [1; 2; 64; 3; 130]).1
    = running_count (Cnt zero_Array32) (length pre) /\
    (forall k, is_key k ->
               Has (InitIndexBitmap zero_Array32 [1; 2; 64; 3; 130]).1 k
               = Return (bool_decide (k ∈ pre))).
Proof.
  apply (InitIndexBitmap_error_partial_build zero_Array32 _ [1; 2; 64; 3; 130]).
  reflexivity.
Defined.

(** X5. When [InitIndexBitmap] ends in an index panic, it was raised by
    the first element [x] that passed the ascent check but lies at or
    beyond 64 * bmCnt, hence above the last element of the input; the
    elements before it are strictly ascending and non-negative and the
    structure holds exactly them. *)
Theorem InitIndexBitmap_index_panic_cause (a a' : Array32) (index : list Z) :
  InitIndexBitmap a index = (a', Panics IndexOutOfRange) ->
  exists pre x post,
    index = pre ++ x :: post /\
    strictly_ascending pre = true /\
    (forall y, y ∈ pre -> 0 <= y) /\
    next_after 0 pre <= x /\
    64 * bmCnt_of index <= x /\
    (forall L, last index = Some L -> Int32.in_range L -> L < x) /\
    (forall k, is_key k -> Has a' k = Return (bool_decide (k ∈ pre))).
Proof.
  intros Hrun. pose proof Hrun as Hrun'.
  apply InitIndexBitmap_stops in Hrun
    as (pre & x & post & Hsplit & Hinv & Hs & Hall & [[He _]|[_ [Hx Hcap]]]);
    try discriminate.
  exists pre, x, post. repeat split; auto.
  - intros L HL Hr.
    assert (Hnn : 0 <= bmCnt_of index).
    { revert Hrun'. unfold InitIndexBitmap.
      destruct (Z.ltb_spec (bmCnt_of index) 0); [discriminate|]. lia. }
    pose proof (last_below_bmCnt index L HL Hr Hnn). lia.
  - intros k Hk. now apply (Has_built (Cnt a) pre).
Qed.

Lemma InitIndexBitmap_index_panic_cause_witness :
  exists pre x post,
    [1; 100; 3] = pre ++ x :: post /\
    strictly_ascending pre = true /\
    (forall y, y ∈ pre -> 0 <= y) /\
    next_after 0 pre <= x /\
    64 * bmCnt_of [1; 100; 3] <= x /\
    (forall L, last [1; 100; 3] = Some L -> Int32.in_range L -> L < x) /\
    (forall k, is_key k ->
               Has (InitIndexBitmap zero_Array32 [1; 100; 3]).1 k
               = Return (bool_decide (k ∈ pre))).
Proof.
  apply (InitIndexBitmap_index_panic_cause zero_Array32 _ [1; 100; 3]).
  reflexivity.
Defined.

(** ** What the queries say about a built structure *)

(** X6. After a successful build, on any receiver, [Has] decides
    membership in the input list for every non-negative int32 key. *)
Theorem Has_after_build (a a' : Array32) (index : list Z) (k : Z) :
  InitIndexBitmap a index = (a', Return None) ->
  is_key k ->
  Has a' k = Return (bool_decide (k ∈ index)).
Proof.
  intros Hbuild Hk.
  apply InitIndexBitmap_Return_nil in Hbuild as (Hinv & _ & _).
  now apply (Has_built (Cnt a) index).
Qed.

Lemma Has_after_build_witness :
  Has (InitIndexBitmap zero_Array32 [1; 2; 64; 130]).1 64
  = Return (bool_decide (64 ∈ [1; 2; 64; 130])).
Proof.
  apply (Has_after_build zero_Array32 _ [1; 2; 64; 130] 64).
  - reflexivity.
  - unfold is_key, Int32.max_int. lia.
Defined.

Lemma rank_mono (l : list Z) (k1 k2 : Z) :
  k1 <= k2 -> rank l k1 <= rank l k2.
Proof.
  intros Hle. induction l as [|x l IH]; cbn [rank]; [lia|].
  destruct (Z.ltb_spec x k1), (Z.ltb_spec x k2); lia.
Qed.

(** A found key is a key of the list, and its position says where. *)
Lemma GetEltIndex_found (l : list Z) (a : Array32) (k p : Z) :
  built_inv 0 l a ->
  strictly_ascending l = true ->
  0 <= k ->
  GetEltIndex a k = Return (p, true) ->
  exists i : nat, l !! i = Some k /\ p = Z.of_nat i.
Proof.
  intros Hinv Hs Hk Hget.
  destruct (decide (k ∈ l)) as [Hin|Hnin].
  - apply list_elem_of_lookup in Hin as [i Hi]. exists i. split; [exact Hi|].
    rewrite (GetEltIndex_built_position 0 l a i k Hinv) in Hget;
      [|unfold_int; lia|assumption|assumption].
    injection Hget as <-. apply wrap_small.
    pose proof (built_length_bound 0 l a Hinv Hs).
    apply lookup_lt_Some in Hi. unfold_int. lia.
  - rewrite (GetEltIndex_absent 0 l a k Hinv Hk Hnin) in Hget. discriminate.
Qed.

(** X7. On a structure built from a counter of 0, the positions
    [GetEltIndex] returns for the present keys are exactly the numbers
    0 .. Cnt - 1, each for one key. *)
Theorem GetEltIndex_positions_dense (a a' : Array32) (index : list Z) :
  Cnt a = 0 ->
  InitIndexBitmap a index = (a', Return None) ->
  (forall k p, is_key k -> GetEltIndex a' k = Return (p, true) ->
               0 <= p < Cnt a') /\
  (forall p, 0 <= p < Cnt a' ->
             exists k, is_key k /\ GetEltIndex a' k = Return (p, true) /\
                       forall k', is_key k' ->
                                  GetEltIndex a' k' = Return (p, true) ->
                                  k' = k).
Proof.
  intros Hc Hbuild.
  apply InitIndexBitmap_Return_nil in Hbuild as (Hinv & Hs & Hnn).
  rewrite Hc in Hinv.
  pose proof (built_length_bound 0 index a' Hinv Hs) as Hlen.
  assert (Hcnt : Cnt a' = Z.of_nat (length index)).
  { rewrite (inv_cnt _ _ _ Hinv). apply running_count_0. lia. }
  rewrite Hcnt. split.
  - intros k p [Hk _] Hget.
    destruct (GetEltIndex_found index a' k p Hinv Hs Hk Hget) as (i & Hi & ->).
    apply lookup_lt_Some in Hi. lia.
  - intros p Hp.
    destruct (lookup_lt_is_Some_2 index (Z.to_nat p)) as [k Hi]; [lia|].
    exists k.
    pose proof (inv_keys _ _ _ Hinv k (list_elem_of_lookup_2 _ _ _ Hi)) as Hkr.
    split; [unfold is_key; unfold_int; lia|]. split.
    + rewrite (GetEltIndex_built_position 0 index a' (Z.to_nat p) k Hinv);
        [|unfold_int; lia|assumption|assumption].
      rewrite Z.add_0_l, Z2Nat.id, wrap_small by (unfold_int; lia).
      reflexivity.
    + intros k' [Hk' _] Hget.
      destruct (GetEltIndex_found index a' k' p Hinv Hs Hk' Hget)
        as (i & Hi' & Hpi).
      assert (i = Z.to_nat p) by lia. subst i. congruence.
Qed.

Lemma GetEltIndex_positions_dense_witness :
  (forall k p, is_key k ->
               GetEltIndex (InitIndexBitmap zero_Array32 [1; 2; 64; 130]).1 k
               = Return (p, true) ->
               0 <= p < Cnt (InitIndexBitmap zero_Array32 [1; 2; 64; 130]).1) /\
  (forall p, 0 <= p < Cnt (InitIndexBitmap zero_Array32 [1; 2; 64; 130]).1 ->
             exists k,
               is_key k /\
               GetEltIndex (InitIndexBitmap zero_Array32 [1; 2; 64; 130]).1 k
               = Return (p, true) /\
               forall k', is_key k' ->
                          GetEltIndex
                            (InitIndexBitmap zero_Array32 [1; 2; 64; 130]).1 k'
                          = Return (p, true) ->
                          k' = k).
Proof.
  apply (GetEltIndex_positions_dense zero_Array32 _ [1; 2; 64; 130]);
    reflexivity.
Defined.

(** X8. On a structure built from a counter of 0, a smaller present key
    has a smaller position. *)
Theorem GetEltIndex_monotone (a a' : Array32) (index : list Z)
    (k1 k2 p1 p2 : Z) :
  Cnt a = 0 ->
  InitIndexBitmap a index = (a', Return None) ->
  is_key k1 -> is_key k2 ->
  GetEltIndex a' k1 = Return (p1, true) ->
  GetEltIndex a' k2 = Return (p2, true) ->
  k1 < k2 ->
  p1 < p2.
Proof.
  intros Hc Hbuild [Hk1 _] [Hk2 _] H1 H2 Hlt.
  apply InitIndexBitmap_Return_nil in Hbuild as (Hinv & Hs & Hnn).
  rewrite Hc in Hinv.
  destruct (GetEltIndex_found index a' k1 p1 Hinv Hs Hk1 H1) as (i1 & Hi1 & ->).
  destruct (GetEltIndex_found index a' k2 p2 Hinv Hs Hk2 H2) as (i2 & Hi2 & ->).
  rewrite <- (rank_lookup index i1 k1 Hs Hi1).
  rewrite <- (rank_lookup index i2 k2 Hs Hi2).
  pose proof (rank_succ index k1 (strictly_ascending_NoDup _ Hs)) as Hsucc.
  rewrite bool_decide_eq_true_2 in Hsucc
    by (eapply list_elem_of_lookup_2; eauto).
  pose proof (rank_mono index (k1 + 1) k2 ltac:(lia)). cbn [Z.b2z] in Hsucc.
  lia.
Qed.

Lemma GetEltIndex_monotone_witness :
  GetEltIndex (InitIndexBitmap zero_Array32 [1; 2; 64; 130]).1 2
  = Return (1, true) /\
  GetEltIndex (InitIndexBitmap zero_Array32 [1; 2; 64; 130]).1 130
  = Return (3, true) /\
  1 < 3.
Proof.
  split; [reflexivity|]. split; [reflexivity|].
  apply (GetEltIndex_monotone zero_Array32
           (InitIndexBitmap zero_Array32 [1; 2; 64; 130]).1
           [1; 2; 64; 130] 2 130 1 3);
    try reflexivity; unfold is_key, Int32.max_int; lia.
Defined.

(** ** The words and offsets of a built structure *)

(** X9. After a successful build every word of [Bitmaps] is a uint64
    whose bit [j] is set exactly when the key [64 * b + j] is in the input
    list, [b] being the position of the word. *)
Theorem Bitmaps_after_build (a a' : Array32) (index : list Z) (b : nat) (w : Z) :
  InitIndexBitmap a index = (a', Return None) ->
  Bitmaps a' !! b = Some w ->
  0 <= w < Uint64.modulus /\
  (forall j, 0 <= j < 64 ->
             (Z.testbit w j = true <-> 64 * Z.of_nat b + j ∈ index)).
Proof.
  intros Hbuild Hw.
  apply InitIndexBitmap_Return_nil in Hbuild as (Hinv & _ & _).
  pose proof (inv_bits _ _ _ Hinv b w) as Hbits. split.
  - assert (Heq : w = w mod 2 ^ 64).
    { apply Z.bits_inj'. intros n Hn. destruct (Z.lt_ge_cases n 64).
      - now rewrite Z.mod_pow2_bits_low by lia.
      - rewrite Z.mod_pow2_bits_high by lia.
        destruct (Z.testbit w n) eqn:E; [|reflexivity].
        apply (Hbits n Hw Hn) in E. lia. }
    rewrite Heq. change Uint64.modulus with (2 ^ 64).
    apply Z.mod_pos_bound. lia.
  - intros j Hj. rewrite (Hbits j Hw) by lia. intuition lia.
Qed.

Lemma Bitmaps_after_build_witness :
  0 <= 4 < Uint64.modulus /\
  (forall j, 0 <= j < 64 ->
             (Z.testbit 4 j = true <->
              64 * Z.of_nat 2 + j ∈ [1; 2; 64; 130])).
Proof.
  apply (Bitmaps_after_build zero_Array32
           (InitIndexBitmap zero_Array32 [1; 2; 64; 130]).1
           [1; 2; 64; 130] 2 4);
    reflexivity.
Defined.

Lemma ones_total_app (l1 l2 : list Z) :
  ones_total (l1 ++ l2) = ones_total l1 + ones_total l2.
Proof.
  induction l1 as [|w l1 IH]; cbn [ones_total app]; [reflexivity|].
  rewrite IH. lia.
Qed.

Lemma OnesCount64_count (w : Z) : bits.OnesCount64 w = bits.count_bits w 64.
Proof.
  unfold bits.OnesCount64. apply count_bits_ext. intros i Hi.
  unfold Uint64.wrap. change Uint64.modulus with (2 ^ 64).
  apply Z.mod_pow2_bits_low. lia.
Qed.

(** The number of keys below a block boundary is the number of bits set
    in the words before it. *)
Lemma rank_ones_total (c0 : Z) (l : list Z) (a : Array32) (n : nat) :
  built_inv c0 l a ->
  NoDup l ->
  (n <= length (Bitmaps a))%nat ->
  rank l (64 * Z.of_nat n) = ones_total (take n (Bitmaps a)).
Proof.
  intros Hinv Hnd. induction n as [|n IH]; intros Hn.
  - cbn [take ones_total]. apply rank_none_below. intros x Hx.
    pose proof (inv_keys _ _ _ Hinv x Hx). lia.
  - destruct (lookup_lt_is_Some_2 (Bitmaps a) n) as [w Hw]; [lia|].
    rewrite (take_S_r _ _ _ Hw), ones_total_app. cbn [ones_total].
    rewrite <- IH, OnesCount64_count, Z.add_0_r by lia.
    replace (64 * Z.of_nat (S n)) with (64 * Z.of_nat n + Z.of_nat 64) by lia.
    apply rank_bits; [assumption| |lia].
    intros j Hj. apply (inv_bits _ _ _ Hinv n w j Hw Hj).
Qed.

(** X10. On a structure built from a counter of 0, [Cnt] is the number of
    bits set in [Bitmaps], and the offset of every non-zero word is the
    number of bits set in the words before it. *)
Theorem Offsets_are_prefix_popcounts (a a' : Array32) (index : list Z) :
  Cnt a = 0 ->
  InitIndexBitmap a index = (a', Return None) ->
  Cnt a' = ones_total (Bitmaps a') /\
  (forall (b : nat) (w : Z),
      Bitmaps a' !! b = Some w -> w <> 0 ->
      Offsets a' !! b = Some (ones_total (take b (Bitmaps a')))).
Proof.
  intros Hc Hbuild.
  apply InitIndexBitmap_Return_nil in Hbuild as (Hinv & Hs & Hnn).
  rewrite Hc in Hinv.
  pose proof (built_length_bound 0 index a' Hinv Hs) as Hlen.
  pose proof (strictly_ascending_NoDup _ Hs) as Hnd.
  split.
  - rewrite (inv_cnt _ _ _ Hinv), running_count_0 by lia.
    rewrite <- (take_ge (Bitmaps a') (length (Bitmaps a'))) at 1 by lia.
    rewrite <- (rank_ones_total 0 index a') by (assumption || lia).
    symmetry. apply rank_all_below. intros x Hx.
    pose proof (inv_keys _ _ _ Hinv x Hx). lia.
  - intros b w Hw Hnz. rewrite (inv_offs _ _ _ Hinv b w Hw Hnz). f_equal.
    pose proof (rank_bounds index (64 * Z.of_nat b)).
    rewrite running_count_0, Z2Nat.id by lia.
    apply (rank_ones_total 0 index a'); [assumption|assumption|].
    apply lookup_lt_Some in Hw. lia.
Qed.

Lemma Offsets_are_prefix_popcounts_witness :
  Cnt (InitIndexBitmap zero_Array32 [1; 2; 64; 130]).1
  = ones_total (Bitmaps (InitIndexBitmap zero_Array32 [1; 2; 64; 130]).1) /\
  (forall (b : nat) (w : Z),
      Bitmaps (InitIndexBitmap zero_Array32 [1; 2; 64; 130]).1 !! b = Some w ->
      w <> 0 ->
      Offsets (InitIndexBitmap zero_Array32 [1; 2; 64; 130]).1 !! b
      = Some (ones_total
                (take b (Bitmaps (InitIndexBitmap zero_Array32
                                    [1; 2; 64; 130]).1)))).
Proof.
  apply (Offsets_are_prefix_popcounts zero_Array32 _ [1; 2; 64; 130]);
    reflexivity.
Defined.

(** ** [appendIndex] after a build *)

(** X11. On a structure built from a counter of 0, [appendIndex] of a key
    above all the keys present, and still within the allocated words,
    returns and makes the key the next element: it is found at the old
    [Cnt], the keys present before keep their positions, and [Has]
    answers for the extended list. *)
Theorem appendIndex_extends (a a' : Array32) (index : list Z) (x : Z) :
  Cnt a = 0 ->
  InitIndexBitmap a index = (a', Return None) ->
  (forall y, y ∈ index -> y < x) ->
  0 <= x < 64 * Z.of_nat (length (Bitmaps a')) ->
  exists a'',
    appendIndex a' x = (a'', Return tt) /\
    Cnt a'' = Cnt a' + 1 /\
    GetEltIndex a'' x = Return (Cnt a', true) /\
    (forall (i : nat) (k : Z),
        index !! i = Some k -> GetEltIndex a'' k = Return (Z.of_nat i, true)) /\
    (forall k, is_key k -> Has a'' k = Return (bool_decide (k ∈ index ++ [x]))).
Proof.
  intros Hc Hbuild Habove Hx.
  apply InitIndexBitmap_Return_nil in Hbuild as (Hinv & Hs & Hnn).
  rewrite Hc in Hinv.
  destruct (appendIndex_in_bounds a' x (inv_len _ _ _ Hinv) Hx) as [a'' Happ].
  exists a''. split; [exact Happ|].
  assert (Hinv' : built_inv 0 (index ++ [x]) a'')
    by (apply (appendIndex_inv 0 index a' a'' x); auto; lia).
  assert (Hs' : strictly_ascending (index ++ [x]) = true)
    by now apply strictly_ascending_snoc.
  pose proof (built_length_bound 0 _ a'' Hinv' Hs') as Hlen.
  rewrite length_app in Hlen. cbn [length] in Hlen.
  assert (Hcnt : Cnt a' = Z.of_nat (length index)).
  { rewrite (inv_cnt _ _ _ Hinv). apply running_count_0. lia. }
  assert (Hpos : forall (i : nat) (k : Z),
             (index ++ [x]) !! i = Some k ->
             GetEltIndex a'' k = Return (Z.of_nat i, true)).
  { intros i k Hi.
    rewrite (GetEltIndex_built_position 0 _ a'' i k Hinv');
      [|unfold_int; lia|assumption|assumption].
    apply lookup_lt_Some in Hi. rewrite length_app in Hi. cbn [length] in Hi.
    rewrite Z.add_0_l, wrap_small by (unfold_int; lia). reflexivity. }
  repeat split.
  - rewrite (inv_cnt _ _ _ Hinv'), Hcnt, running_count_0, length_app;
      rewrite ?length_app; cbn [length]; lia.
  - rewrite Hcnt. apply Hpos. now rewrite list_lookup_middle.
  - intros i k Hi. apply Hpos. rewrite lookup_app_l; [assumption|].
    now apply lookup_lt_Some in Hi.
  - intros k Hk. now apply (Has_built 0 (index ++ [x])).
Qed.

Lemma appendIndex_extends_witness :
  exists a'',
    appendIndex (InitIndexBitmap zero_Array32 [1; 2; 64; 130]).1 150
    = (a'', Return tt) /\
    Cnt a'' = Cnt (InitIndexBitmap zero_Array32 [1; 2; 64; 130]).1 + 1 /\
    GetEltIndex a'' 150
    = Return (Cnt (InitIndexBitmap zero_Array32 [1; 2; 64; 130]).1, true) /\
    (forall (i : nat) (k : Z),
        [1; 2; 64; 130] !! i = Some k ->
        GetEltIndex a'' k = Return (Z.of_nat i, true)) /\
    (forall k, is_key k ->
               Has a'' k = Return (bool_decide (k ∈ [1; 2; 64; 130] ++ [150]))).
Proof.
  apply (appendIndex_extends zero_Array32 _ [1; 2; 64; 130] 150).
  - reflexivity.
  - reflexivity.
  - intros y Hy. rewrite !elem_of_cons in Hy.
    destruct Hy as [->|[->|[->|[->|Hy]]]]; [lia | lia | lia | lia |].
    now apply elem_of_nil in Hy.
  - vm_compute. split; [discriminate | reflexivity].
Defined.

(** X12. [appendIndex] of a key whose bit is already set changes nothing
    but the counter: the key is not stored twice, yet [Cnt] grows by
    one. *)
Theorem appendIndex_present_key (a : Array32) (x w : Z) :
  0 <= x ->
  slice_get (Bitmaps a) (x / 64) = Some w ->
  Z.testbit w (x mod 64) = true ->
  appendIndex a x
  = ({| Cnt := Int32.wrap (Cnt a + 1); Bitmaps := Bitmaps a;
        Offsets := Offsets a; Elts := Elts a |}, Return tt).
Proof.
  intros Hx Hw Hbit. unfold appendIndex. rewrite bmBit_div_mod, Hw.
  assert (Hmod : 0 <= x mod 64 < 64) by (apply Z.mod_pos_bound; lia).
  assert (Hu : Uint64.wrap (x mod 64) = x mod 64) by int_lia.
  assert (Hnz : w <> 0) by (intros ->; now rewrite Z.bits_0 in Hbit).
  destruct (Z.eqb_spec w 0) as [|_]; [contradiction|].
  apply slice_get_Some in Hw as [_ Hw].
  assert (Hlor : Z.lor w (Uint64.shl 1 (x mod 64)) = w).
  { apply Z.bits_inj'. intros n Hn. rewrite Z.lor_spec, shl_1_testbit by lia.
    destruct (Z.eqb_spec (x mod 64) n) as [<-|_].
    - now rewrite Hbit.
    - apply orb_false_r. }
  rewrite Hu, Hlor. unfold slice_set. now rewrite list_insert_id.
Qed.

Lemma appendIndex_present_key_witness :
  appendIndex (InitIndexBitmap zero_Array32 [1; 2; 64; 130]).1 64
  = ({| Cnt := Int32.wrap (4 + 1); Bitmaps := [6; 1; 4];
        Offsets := [0; 2; 3]; Elts := [] |}, Return tt).
Proof.
  apply (appendIndex_present_key
           (InitIndexBitmap zero_Array32 [1; 2; 64; 130]).1 64 1).
  - lia.
  - reflexivity.
  - reflexivity.
Defined.

(** ** Receivers that were used before, and keys that are negative *)

(** X13. [InitIndexBitmap] counts on from the [Cnt] the receiver holds:
    after a successful build the key at position [i] of the input is found
    at [Cnt + i] (as an int32), and the new [Cnt] is the old one plus the
    length of the input. *)
Theorem GetEltIndex_counts_from_Cnt (a a' : Array32) (index : list Z)
    (i : nat) (k : Z) :
  Int32.in_range (Cnt a) ->
  InitIndexBitmap a index = (a', Return None) ->
  index !! i = Some k ->
  GetEltIndex a' k = Return (Int32.wrap (Cnt a + Z.of_nat i), true) /\
  Cnt a' = Int32.wrap (Cnt a + Z.of_nat (length index)).
Proof.
  intros Hc Hbuild Hi.
  apply InitIndexBitmap_Return_nil in Hbuild as (Hinv & Hs & _). split.
  - now apply (GetEltIndex_built_position (Cnt a) index).
  - rewrite (inv_cnt _ _ _ Hinv). now apply running_count_wrap.
Qed.

Lemma GetEltIndex_counts_from_Cnt_witness :
  GetEltIndex
    (InitIndexBitmap {| Cnt := 5; Bitmaps := [7]; Offsets := [0]; Elts := [] |}
       [1; 2; 64; 130]).1 64
  = Return (Int32.wrap (5 + Z.of_nat 2), true) /\
  Cnt (InitIndexBitmap
         {| Cnt := 5; Bitmaps := [7]; Offsets := [0]; Elts := [] |}
         [1; 2; 64; 130]).1
  = Int32.wrap (5 + Z.of_nat (length [1; 2; 64; 130])).
Proof.
  apply (GetEltIndex_counts_from_Cnt
           {| Cnt := 5; Bitmaps := [7]; Offsets := [0]; Elts := [] |}
           _ [1; 2; 64; 130] 2 64).
  - unfold Int32.in_range, Int32.half. cbn [Cnt]. lia.
  - reflexivity.
  - reflexivity.
Defined.

(** X14. On every structure with fewer than 2^31 words, built or not,
    [GetEltIndex] panics on every negative int32 key: the word index
    [idx >> 6] is negative and passes the only guard. *)
Theorem GetEltIndex_negative_key_panics (a : Array32) (k : Z) :
  Z.of_nat (length (Bitmaps a)) < Int32.half ->
  k < 0 ->
  GetEltIndex a k = Panics IndexOutOfRange.
Proof.
  intros Hlen Hk. unfold GetEltIndex. rewrite bmBit_div_mod.
  assert (Hq : k / 64 < 0) by (Z.to_euclidean_division_equations; lia).
  assert (Hl : len32 (Bitmaps a) = Z.of_nat (length (Bitmaps a))).
  { unfold len32. apply wrap_small. unfold_int. lia. }
  rewrite Hl. destruct (Z.geb_spec (k / 64) (Z.of_nat (length (Bitmaps a))));
    [lia|].
  replace (slice_get (Bitmaps a) (k / 64)) with (@None Z); [reflexivity|].
  symmetry. apply slice_get_None. lia.
Qed.

Lemma GetEltIndex_negative_key_panics_witness :
  GetEltIndex zero_Array32 (-1) = Panics IndexOutOfRange.
Proof.
  apply (GetEltIndex_negative_key_panics zero_Array32 (-1)).
  - vm_compute. reflexivity.
  - lia.
Defined.

(** X15. On every structure with fewer than 2^31 words, [Has] panics on
    the int32 keys from -64 downwards, and on a key between -63 and -1 it
    answers for the key 64 above it: truncating division sends such a key
    to word 0. *)
Theorem Has_negative_key (a : Array32) (k : Z) :
  Z.of_nat (length (Bitmaps a)) < Int32.half ->
  Int32.in_range k ->
  k < 0 ->
  (k <= -64 -> Has a k = Panics IndexOutOfRange) /\
  (-64 < k -> Has a k = Has a (k + 64)).
Proof.
  intros Hlen Hr Hk.
  assert (Hl : len32 (Bitmaps a) = Z.of_nat (length (Bitmaps a))).
  { unfold len32. apply wrap_small. unfold_int. lia. }
  split.
  - intros Hle. unfold Has, hasBit. rewrite Hl.
    assert (Hq : Int32.quot k bmWidth < 0) by int_lia.
    destruct (Z.ltb_spec (Int32.quot k bmWidth)
                (Z.of_nat (length (Bitmaps a)))); [|lia].
    replace (slice_get (Bitmaps a) (Int32.quot k bmWidth)) with (@None Z);
      [reflexivity|].
    symmetry. apply slice_get_None. lia.
  - intros Hgt.
    assert (Hsplit : hasBit k = hasBit (k + 64)).
    { unfold hasBit. f_equal; [int_lia|].
      unfold bmMask. change 63 with (Z.ones 6).
      rewrite !Z.land_ones by lia. change (2 ^ 6) with 64.
      Z.to_euclidean_division_equations. lia. }
    unfold Has. now rewrite Hsplit.
Qed.

Lemma Has_negative_key_witness :
  (-1 <= -64 ->
   Has (InitIndexBitmap zero_Array32 [63]).1 (-1) = Panics IndexOutOfRange) /\
  (-64 < -1 ->
   Has (InitIndexBitmap zero_Array32 [63]).1 (-1)
   = Has (InitIndexBitmap zero_Array32 [63]).1 (-1 + 64)).
Proof.
  apply (Has_negative_key (InitIndexBitmap zero_Array32 [63]).1 (-1)).
  - vm_compute. reflexivity.
  - unfold Int32.in_range, Int32.half. lia.
  - lia.
Defined.
